(** * Parallel::Request — chained non-blocking requests with shared post-wait work

    A shallow embedding of [libMesh::Parallel::Request] (request.h) and a
    verification of its chaining, reference-counting and wait/test behaviour.

    The embedding follows the [LIBMESH_HAVE_MPI] configuration of the header.

    - The MPI library is external: it is an interface ([MPI]) giving the
      handle type, its null value and the two primitives the class calls.
    - [std::unique_ptr<Request> _prior_request] is an owning, never aliased
      pointer: the chain is an owned optional sub-value of the record.
    - [post_wait_work] is a raw pointer to a heap-allocated pair of a vector
      of work item pointers and an unsigned counter, shared between
      handles: it is an optional location into an explicit heap, and the
      counter is a 32-bit unsigned integer with its wrap-around written out.
    - Member functions run in a state-and-error monad over the heap, the MPI
      world and a trace of the external actions performed (native calls,
      work items run and deleted). *)

From stdpp Require Import base option list gmap.
From Stdlib Require Import ZArith Lia.

Local Open Scope Z_scope.

(** ** The external MPI primitive *)

Class MPI := {
  request : Type;                       (* MPI_Request *)
  request_eq_dec :: EqDecision request;
  MPI_REQUEST_NULL : request;
  status : Type;                        (* MPI_Status *)
  MPI_World : Type;                     (* state of the progress engine *)
  (* MPI_Wait on a request buffer and a status buffer: the new world, the
     new content of the two buffers, and the return code. *)
  MPI_Wait : MPI_World → request → MPI_World * request * status * Z;
  (* MPI_Test on a request buffer, a flag and a status buffer: as above,
     with the flag written between the request and the status. *)
  MPI_Test : MPI_World → request → MPI_World * request * Z * status * Z;
}.

Definition MPI_SUCCESS : Z := 0.

(** ** Build configuration *)

Record Build := mkBuild {
  (* Modelled from the spec: [libmesh_assert] is a macro of libmesh_common.h,
     which is not among the sources; invariant checks are "checked only in
     strict/debug builds, fatal when checked".  [strict] tells whether the
     macro is compiled in. *)
  strict : bool;
  (* the [#ifdef DEBUG] block of [Request::cleanup] *)
  DEBUG : bool;
}.

(** ** Data model *)

Definition loc := positive.             (* address of a shared work list *)
Definition PostWaitWork := positive.    (* identity of a non-null work item pointer *)

(* The pair of a vector of work item pointers and an unsigned int; a null
   entry of the vector is [None]. *)
Record WorkList := mkWorkList {
  first : list (option PostWaitWork);
  second : Z;
}.

Definition UINT_MODULUS : Z := 2 ^ 32.
Definition uint (z : Z) : Z := z mod UINT_MODULUS.

Inductive assertion :=
| assert_work_done       (* cleanup:  libmesh_assert(!item) *)
| assert_work_present    (* wait:     libmesh_assert(item) *)
| assert_request_null    (* test:     libmesh_assert(_request == MPI_REQUEST_NULL) *)
| assert_val_one         (* test:     libmesh_assert_equal_to(val, 1) *)
| assert_no_prior.       (* add_prior_request: libmesh_assert(!req._prior_request.get()) *)

Inductive undefined :=
| null_dereference       (* a call through a null work item pointer *)
| dangling_pointer.      (* an access through a deleted work list *)

Inductive error :=
| InvariantViolation (a : assertion)
| TransportFailure (code : Z)
| UndefinedBehaviour (u : undefined).

Inductive result (A : Type) :=
| Ok (a : A)
| Err (e : error).
Arguments Ok {A} a.
Arguments Err {A} e.

Section Request.
Context {mpi : MPI} (build : Build).

(* Modelled from the spec: [Status] is the class of status.h, which is not
   among the sources: "opaque, populated by the native wait/test,
   constructible and passable by reference". *)
Record Status := mkStatus { Status_get : status }.

#[local] Unset Elimination Schemes.
Inductive Request := mkRequest {
  _request : request;
  _prior_request : option Request;
  post_wait_work : option loc;
}.
#[local] Set Elimination Schemes.

Inductive event :=
| EvWait (r : request)        (* MPI_Wait called on this handle value *)
| EvTest (r : request)        (* MPI_Test called on this handle value *)
| EvRun (w : PostWaitWork)    (* item->run() *)
| EvDelete (w : PostWaitWork) (* delete item *).

Record State := mkState {
  heap : gmap loc WorkList;
  world : MPI_World;
  trace : list event;
}.

(** ** The monad of member functions *)

Definition M (A : Type) : Type := State → State * result A.

#[global] Instance M_ret : MRet M := λ A a s, (s, Ok a).
#[global] Instance M_bind : MBind M := λ A B f m s,
  match m s with
  | (s', Ok a) => f a s'
  | (s', Err e) => (s', Err e)
  end.

Definition throw {A} (e : error) : M A := λ s, (s, Err e).
Definition get_heap : M (gmap loc WorkList) := λ s, (s, Ok (heap s)).
Definition put_heap (h : gmap loc WorkList) : M unit :=
  λ s, (mkState h (world s) (trace s), Ok tt).
Definition emit (e : event) : M unit :=
  λ s, (mkState (heap s) (world s) (trace s ++ [e]), Ok tt).

(* libmesh_assert(b) *)
Definition libmesh_assert (a : assertion) (b : bool) : M unit :=
  if strict build then (if b then mret tt else throw (InvariantViolation a))
  else mret tt.

(* Modelled from the spec: [libmesh_call_mpi] is a macro of
   libmesh_call_mpi.h, which is not among the sources: "the native wait/test
   primitive reports an error; surfaced immediately", "never swallowed". *)
Definition libmesh_call_mpi (code : Z) : M unit :=
  if decide (code = MPI_SUCCESS) then mret tt else throw (TransportFailure code).

(* *p for a work list pointer p *)
Definition deref (l : loc) : M WorkList :=
  h ← get_heap;
  match h !! l with
  | Some wl => mret wl
  | None => throw (UndefinedBehaviour dangling_pointer)
  end.

Definition store (l : loc) (wl : WorkList) : M unit :=
  h ← get_heap; put_heap (<[l := wl]> h).

(* new std::pair<...>(...) *)
Definition alloc (wl : WorkList) : M loc :=
  h ← get_heap;
  let l := fresh (dom h) in
  put_heap (<[l := wl]> h);; mret l.

(* delete p for a work list pointer p *)
Definition free (l : loc) : M unit :=
  h ← get_heap; put_heap (delete l h).

Definition mpi_wait (r : request) : M (request * status * Z) := λ s,
  let '(w, r', st, code) := MPI_Wait (world s) r in
  (mkState (heap s) w (trace s ++ [EvWait r]), Ok (r', st, code)).

Definition mpi_test (r : request) : M (request * Z * status * Z) := λ s,
  let '(w, r', flag, st, code) := MPI_Test (world s) r in
  (mkState (heap s) w (trace s ++ [EvTest r]), Ok (r', flag, st, code)).

Definition is_null {A} (p : option A) : bool :=
  match p with None => true | Some _ => false end.

(** ** Constructors, destructor and assignment *)

(* Request::Request () *)
Definition Request_default : Request := mkRequest MPI_REQUEST_NULL None None.

(* Request::Request (const request & r) *)
Definition Request_native (r : request) : Request := mkRequest r None None.

(* post_wait_work->second++ *)
Definition acquire (p : option loc) : M unit :=
  match p with
  | Some l => wl ← deref l; store l (mkWorkList (first wl) (uint (second wl + 1)))
  | None => mret tt
  end.

(* Request::Request (const Request & other) *)
Fixpoint Request_copy (other : Request) : M Request :=
  prior ← match _prior_request other with
          | Some p => p' ← Request_copy p; mret (Some p')
          | None => mret None
          end;
  acquire (post_wait_work other);;
  mret (mkRequest (_request other) prior (post_wait_work other)).

(* for (const auto & item : post_wait_work->first) libmesh_assert(!item); *)
Fixpoint assert_all_done (items : list (option PostWaitWork)) : M unit :=
  match items with
  | [] => mret tt
  | item :: rest =>
      libmesh_assert assert_work_done (is_null item);; assert_all_done rest
  end.

(* Request::cleanup *)
Definition cleanup (this : Request) : M Request :=
  match post_wait_work this with
  | Some l =>
      wl ← deref l;
      let n := uint (second wl - 1) in
      store l (mkWorkList (first wl) n);;
      if decide (n = 0) then
        (if DEBUG build then assert_all_done (first wl) else mret tt);;
        free l;;
        mret (mkRequest (_request this) (_prior_request this) None)
      else mret this
  | None => mret this
  end.

(* Request::~Request: the body, then the member [_prior_request] is
   destroyed, which deletes the link it owns. [cleanup] leaves
   [_prior_request] as it is. *)
Fixpoint Request_destroy (this : Request) : M unit :=
  cleanup this;;
  match _prior_request this with
  | Some p => Request_destroy p
  | None => mret tt
  end.

(* p.reset(q) of a unique_ptr whose new content is already in place:
   the object [old] that it managed before is deleted. *)
Definition delete_prior (old : option Request) : M unit :=
  match old with
  | Some p => Request_destroy p
  | None => mret tt
  end.

(* The argument of operator= is a reference: it may be the object assigned
   to, and is then read as that object stands at each access. *)
Inductive reference :=
| Self
| Other (other : Request).

Definition resolve (this : Request) (r : reference) : Request :=
  match r with Self => this | Other other => other end.

(* Request::operator = (const Request & other) *)
Definition Request_assign (this : Request) (other : reference) : M Request :=
  this ← cleanup this;
  let this := mkRequest (_request (resolve this other))
                        (_prior_request this) (post_wait_work this) in
  let this := mkRequest (_request this) (_prior_request this)
                        (post_wait_work (resolve this other)) in
  this ← match _prior_request (resolve this other) with
         | Some p =>
             p' ← Request_copy p;
             delete_prior (_prior_request this);;
             mret (mkRequest (_request this) (Some p') (post_wait_work this))
         | None => mret this
         end;
  acquire (post_wait_work this);;
  mret this.

(* Request::operator = (const request & r) *)
Definition Request_assign_native (this : Request) (r : request) : M Request :=
  this ← cleanup this;
  mret (mkRequest r (_prior_request this) None).

(** ** wait and test *)

(* The body of the loop of [wait] over the vector at [l], from index [i];
   [items] are the entries from [i] on. *)
Fixpoint run_work (l : loc) (i : nat) (items : list (option PostWaitWork)) : M unit :=
  match items with
  | [] => mret tt
  | item :: rest =>
      libmesh_assert assert_work_present (negb (is_null item));;
      match item with
      | Some w =>
          emit (EvRun w);;
          emit (EvDelete w);;
          wl ← deref l;
          store l (mkWorkList (<[i := None]> (first wl)) (second wl));;
          run_work l (S i) rest
      | None => throw (UndefinedBehaviour null_dereference)
      end
  end.

Definition post_wait (p : option loc) : M unit :=
  match p with
  | Some l => wl ← deref l; run_work l 0 (first wl)
  | None => mret tt
  end.

(* Request::wait. [LOG_SCOPE] only times the call. [Status stat] is filled
   by [MPI_Wait] through [stat.get()]. *)
Fixpoint Request_wait (this : Request) : M (Status * Request) :=
  prior ← match _prior_request this with
          | Some p => '(_, p') ← Request_wait p; mret (Some p')
          | None => mret None
          end;
  '(r, st, code) ← mpi_wait (_request this);
  libmesh_call_mpi code;;
  post_wait (post_wait_work this);;
  mret (mkStatus st, mkRequest r prior (post_wait_work this)).

(* wait (std::vector<Request> & r) *)
Fixpoint wait_all (rs : list Request) : M (list Request) :=
  match rs with
  | [] => mret []
  | r :: rest =>
      '(_, r') ← Request_wait r;
      rest' ← wait_all rest;
      mret (r' :: rest')
  end.

(* Request::test (); [libmesh_assert_equal_to] is checked as [libmesh_assert]
   is. The int [val] is returned as a bool. *)
Definition Request_test (this : Request) : M (bool * Request) :=
  '(r, val, _, code) ← mpi_test (_request this);
  libmesh_call_mpi code;;
  (if decide (val = 0) then mret tt
   else
     libmesh_assert assert_request_null (bool_decide (r = MPI_REQUEST_NULL));;
     libmesh_assert assert_val_one (bool_decide (val = 1)));;
  mret (negb (bool_decide (val = 0)),
        mkRequest r (_prior_request this) (post_wait_work this)).

(* Request::test (status & stat) *)
Definition Request_test_status (this : Request) : M (bool * status * Request) :=
  '(r, val, st, code) ← mpi_test (_request this);
  libmesh_call_mpi code;;
  mret (negb (bool_decide (val = 0)), st,
        mkRequest r (_prior_request this) (post_wait_work this)).

(** ** Chaining and post-wait work *)

(* Request::add_prior_request *)
Definition add_prior_request (this req : Request) : M Request :=
  libmesh_assert assert_no_prior (is_null (_prior_request req));;
  new_prior_req ← Request_copy req;
  (* new_prior_req->_prior_request.reset(this->_prior_request.release()) *)
  delete_prior (_prior_request new_prior_req);;
  let new_prior_req := mkRequest (_request new_prior_req) (_prior_request this)
                                 (post_wait_work new_prior_req) in
  (* this->_prior_request.reset(new_prior_req): nothing is deleted, the
     pointer was released just above. *)
  mret (mkRequest (_request this) (Some new_prior_req) (post_wait_work this)).

(* Request::add_post_wait_work *)
Definition add_post_wait_work (this : Request) (work : option PostWaitWork) : M Request :=
  l ← match post_wait_work this with
      | Some l => mret l
      | None => alloc (mkWorkList [] 1)
      end;
  wl ← deref l;
  store l (mkWorkList (first wl ++ [work]) (second wl));;
  mret (mkRequest (_request this) (_prior_request this) (Some l)).

End Request.

(** * Verification *)

(** ** Evaluating the monad *)

Ltac munfold :=
  unfold libmesh_assert, libmesh_call_mpi, deref, store, alloc, free,
    mpi_wait, mpi_test, throw, get_heap, put_heap, emit,
    mbind, M_bind, mret, M_ret in *.

Section Basics.
Context {mpi : MPI}.

Lemma bind_ok {A B} (m : M A) (f : A → M B) s s1 a :
  m s = (s1, Ok a) → (m ≫= f) s = f a s1.
Proof. intros H. unfold mbind, M_bind. by rewrite H. Qed.

Lemma bind_err {A B} (m : M A) (f : A → M B) s s1 e :
  m s = (s1, Err e) → (m ≫= f) s = (s1, Err e).
Proof. intros H. unfold mbind, M_bind. by rewrite H. Qed.

Lemma bind_inv_ok {A B} (m : M A) (f : A → M B) s s2 b :
  (m ≫= f) s = (s2, Ok b) → ∃ s1 a, m s = (s1, Ok a) ∧ f a s1 = (s2, Ok b).
Proof.
  unfold mbind, M_bind. destruct (m s) as [s1 [a|e]]; [eauto | discriminate].
Qed.

Lemma bind_inv {A B} (m : M A) (f : A → M B) s s2 (res : result B) :
  (m ≫= f) s = (s2, res) →
  (∃ e, m s = (s2, Err e) ∧ res = Err e) ∨
  (∃ s1 a, m s = (s1, Ok a) ∧ f a s1 = (s2, res)).
Proof.
  unfold mbind, M_bind. destruct (m s) as [s1 [a|e]].
  - right. eauto.
  - intros [= <- <-]. left. eauto.
Qed.

(** Structural induction along the chain of prior requests. *)
Lemma Request_ind (P : Request → Prop) :
  (∀ r w, P (mkRequest r None w)) →
  (∀ r p w, P p → P (mkRequest r (Some p) w)) →
  ∀ this, P this.
Proof.
  intros Hnil Hcons. fix IH 1. intros [r [p|] w].
  - apply Hcons, IH.
  - apply Hnil.
Qed.

End Basics.

(** ** test *)

Section Test.
Context {mpi : MPI} (build : Build).

(** What [MPI_Test] reports as the completion of a request. *)
Definition completed (out : MPI_World * request * Z * status * Z) : bool :=
  negb (bool_decide (out.1.1.2 = 0)).

Lemma test_ok_inv this s s' b this' :
  Request_test build this s = (s', Ok (b, this')) →
  heap s' = heap s ∧
  _prior_request this' = _prior_request this ∧
  post_wait_work this' = post_wait_work this.
Proof.
  unfold Request_test. intros H.
  apply bind_inv_ok in H as (s1 & [[[r val] st] code] & Hm & H).
  assert (heap s1 = heap s) as <-.
  { revert Hm. unfold mpi_test.
    destruct (MPI_Test _ _) as [[[[? ?] ?] ?] ?]. by intros [= <- _ _ _ _]. }
  apply bind_inv_ok in H as (s2 & [] & Hc & H).
  assert (s2 = s1) as ->.
  { revert Hc. munfold. destruct (decide (code = MPI_SUCCESS)); [|done].
    by intros [= ->]. }
  apply bind_inv_ok in H as (s3 & [] & Ha & H). injection H as <- _ <-.
  split; [|done]. revert Ha. munfold.
  destruct (decide (val = 0)); [by intros [= ->]|].
  destruct (strict build); [|by intros [= ->]].
  destruct (bool_decide (r = MPI_REQUEST_NULL)); [|done].
  destruct (bool_decide (val = 1)); [|done]. by intros [= ->].
Qed.

Lemma test_status_ok_inv this s s' b st this' :
  Request_test_status this s = (s', Ok (b, st, this')) →
  heap s' = heap s ∧
  _prior_request this' = _prior_request this ∧
  post_wait_work this' = post_wait_work this.
Proof.
  unfold Request_test_status. intros H.
  apply bind_inv_ok in H as (s1 & [[[r val] st'] code] & Hm & H).
  assert (heap s1 = heap s) as <-.
  { revert Hm. unfold mpi_test.
    destruct (MPI_Test _ _) as [[[[? ?] ?] ?] ?]. by intros [= <- _ _ _ _]. }
  apply bind_inv_ok in H as (s2 & [] & Hc & H).
  assert (s2 = s1) as ->.
  { revert Hc. munfold. destruct (decide (code = MPI_SUCCESS)); [|done].
    by intros [= ->]. }
  by injection H as <- _ _ <-.
Qed.

(** C3. [test] only calls the native [MPI_Test] on the handle's own request
    and reports its flag: the heap of work lists is left as it is, the only
    action performed is that one native test (no wait, no work item run or
    deleted), and the handle keeps its prior chain and its work list. Both
    overloads behave so. *)
Theorem test_leaves_chain_and_work (this : Request) (s : State) :
  (let '(s', res) := Request_test build this s in
   heap s' = heap s ∧ trace s' = trace s ++ [EvTest (_request this)] ∧
   match res with
   | Ok (b, this') =>
       b = completed (MPI_Test (world s) (_request this)) ∧
       _prior_request this' = _prior_request this ∧
       post_wait_work this' = post_wait_work this
   | Err _ => True
   end) ∧
  (let '(s', res) := Request_test_status this s in
   heap s' = heap s ∧ trace s' = trace s ++ [EvTest (_request this)] ∧
   match res with
   | Ok (b, _, this') =>
       b = completed (MPI_Test (world s) (_request this)) ∧
       _prior_request this' = _prior_request this ∧
       post_wait_work this' = post_wait_work this
   | Err _ => True
   end).
Proof.
  unfold Request_test, Request_test_status, completed. munfold.
  destruct (MPI_Test (world s) (_request this)) as [[[[w r] val] st] code].
  simpl. split.
  - destruct (decide (code = MPI_SUCCESS)); [|done].
    destruct (decide (val = 0)); [done|].
    destruct (strict build); [|done].
    destruct (bool_decide (r = MPI_REQUEST_NULL)); [|done].
    by destruct (bool_decide (val = 1)).
  - by destruct (decide (code = MPI_SUCCESS)).
Qed.

(** C9. Provided the native [MPI_Test] resets a request it reports complete
    (flag set) to [MPI_REQUEST_NULL], then for every handle and every state:
    a [test] that returns true leaves the stored native request equal to
    [MPI_REQUEST_NULL]; [test] never fails on the assertion on that
    equality, whatever its outcome; and when [MPI_Test] succeeds and reports
    completion with flag 1, [test] does return true, in every build, with
    the stored request reset. *)
Theorem test_true_request_null (this : Request) (s : State) :
  (∀ w q w' q' flag st code,
     MPI_Test w q = (w', q', flag, st, code) → flag ≠ 0 → q' = MPI_REQUEST_NULL) →
  (∀ s' this',
     Request_test build this s = (s', Ok (true, this')) →
     _request this' = MPI_REQUEST_NULL) ∧
  (∀ s', Request_test build this s ≠
         (s', Err (InvariantViolation assert_request_null))) ∧
  (∀ w' q' st,
     MPI_Test (world s) (_request this) = (w', q', 1, st, MPI_SUCCESS) →
     Request_test build this s =
       (mkState (heap s) w' (trace s ++ [EvTest (_request this)]),
        Ok (true, mkRequest MPI_REQUEST_NULL (_prior_request this)
                            (post_wait_work this)))).
Proof.
  intros Hmpi. unfold Request_test. munfold.
  destruct (MPI_Test (world s) (_request this)) as [[[[w r] val] st] code] eqn:E.
  simpl. split; [|split].
  - intros s' this'. destruct (decide (code = MPI_SUCCESS)); [|done].
    destruct (decide (val = 0)) as [->|Hval]; simpl; [by intros [=]|].
    specialize (Hmpi _ _ _ _ _ _ _ E Hval) as ->.
    destruct (strict build); simpl.
    + rewrite bool_decide_eq_true_2 by done.
      destruct (bool_decide (val = 1)); [|done]. by intros [= _ _ <-].
    + by intros [= _ _ <-].
  - intros s'. destruct (decide (code = MPI_SUCCESS)); [|done].
    destruct (decide (val = 0)) as [->|Hval]; simpl; [done|].
    specialize (Hmpi _ _ _ _ _ _ _ E Hval) as ->.
    destruct (strict build); simpl; [|done].
    rewrite bool_decide_eq_true_2 by done.
    by destruct (bool_decide (val = 1)).
  - intros w' q' st' [= -> -> -> -> ->].
    rewrite (Hmpi _ _ _ _ _ _ _ E) by done.
    rewrite decide_True by done. simpl.
    destruct (strict build); simpl; [|done].
    by rewrite bool_decide_eq_true_2 by done.
Qed.

(** Where assertions are checked, the same holds whatever [MPI_Test] does:
    a [test] that would return true with a request left non-null fails on
    the assertion instead. *)
Lemma test_true_checked (this this' : Request) (s s' : State) :
  strict build = true →
  Request_test build this s = (s', Ok (true, this')) →
  _request this' = MPI_REQUEST_NULL.
Proof.
  intros Hs. unfold Request_test. munfold. rewrite Hs.
  destruct (MPI_Test (world s) (_request this)) as [[[[w r] val] st] code].
  simpl. destruct (decide (code = MPI_SUCCESS)); [|done].
  destruct (decide (val = 0)) as [->|Hval]; simpl; [by intros [=]|].
  destruct (bool_decide (r = MPI_REQUEST_NULL)) eqn:Hr; [|done].
  apply bool_decide_eq_true in Hr as ->.
  destruct (bool_decide (val = 1)); [|done]. by intros [= _ _ <-].
Qed.

End Test.

(** ** wait *)

Section Wait.
Context {mpi : MPI} (build : Build).

(** The actions of running and releasing the work items [ws] in order. *)
Fixpoint work_events (ws : list PostWaitWork) : list event :=
  match ws with
  | [] => []
  | w :: ws => EvRun w :: EvDelete w :: work_events ws
  end.

(** [ws] are the work items queued behind the pointer [p]: the entries of
    its vector, none of them null; nothing when the pointer is null. *)
Definition queued (h : gmap loc WorkList) (p : option loc)
    (ws : list PostWaitWork) : Prop :=
  match p with
  | Some l => ∃ wl, h !! l = Some wl ∧ first wl = Some <$> ws
  | None => ws = []
  end.

(** A work list whose items have all run: every entry is null. *)
Definition emptied (wl : WorkList) : WorkList :=
  mkWorkList (replicate (length (first wl)) None) (second wl).

Definition drain (p : option loc) (h : gmap loc WorkList) : gmap loc WorkList :=
  match p with
  | Some l => alter emptied l h
  | None => h
  end.

Lemma alter_lookup_insert (f : WorkList → WorkList) l wl (h : gmap loc WorkList) :
  h !! l = Some wl → alter f l h = <[l := f wl]> h.
Proof.
  intros Hl. apply map_eq. intros l'.
  destruct (decide (l = l')) as [<-|Hne].
  - by rewrite lookup_alter_eq, lookup_insert_eq, Hl.
  - by rewrite lookup_alter_ne, lookup_insert_ne.
Qed.

Lemma run_work_ok l pre ws c h w t :
  h !! l = Some (mkWorkList (pre ++ (Some <$> ws)) c) →
  run_work build l (length pre) (Some <$> ws) (mkState h w t) =
    (mkState (<[l := mkWorkList (pre ++ replicate (length ws) None) c]> h) w
             (t ++ work_events ws), Ok tt).
Proof.
  revert pre h t. induction ws as [|x ws IH]; intros pre h t Hl.
  - simpl in *. munfold. rewrite !app_nil_r in *. by rewrite insert_id.
  - rewrite fmap_cons in *. cbn [run_work]. munfold. cbn -[fmap].
    destruct (strict build); cbn -[fmap]; rewrite Hl; cbn -[fmap].
    all: replace (<[length pre:=None]> (pre ++ Some x :: (Some <$> ws)))
           with ((pre ++ [None]) ++ (Some <$> ws))
           by (rewrite insert_app_r_alt, Nat.sub_diag by lia;
               simpl; by rewrite <- app_assoc).
    all: replace (S (length pre)) with (length (pre ++ [None]))
           by (rewrite length_app; simpl; lia).
    all: rewrite IH by (by rewrite lookup_insert_eq).
    all: rewrite insert_insert_eq, <- !app_assoc; simpl; done.
Qed.

Lemma run_work_inv l i items s s' :
  run_work build l i items s = (s', Ok tt) → ∃ ws, items = Some <$> ws.
Proof.
  revert i s. induction items as [|[x|] items IH]; intros i s.
  - by exists [].
  - simpl. intros H.
    repeat (apply bind_inv_ok in H as (? & ? & _ & H)).
    apply IH in H as [ws ->]. by exists (x :: ws).
  - simpl. munfold. destruct (strict build); simpl; discriminate.
Qed.

Lemma post_wait_ok p ws s :
  queued (heap s) p ws →
  post_wait build p s =
    (mkState (drain p (heap s)) (world s) (trace s ++ work_events ws), Ok tt).
Proof.
  destruct s as [h w t], p as [l|]; simpl.
  - intros ([items c] & Hl & Hitems). simpl in Hitems. subst items.
    unfold post_wait. munfold. cbn -[fmap]. rewrite Hl. cbn -[fmap].
    pose proof (run_work_ok l [] ws c h w t Hl) as Hrun.
    cbn [length app] in Hrun. rewrite Hrun.
    rewrite (alter_lookup_insert _ _ _ _ Hl). unfold emptied.
    cbn [first second]. by rewrite length_fmap.
  - intros ->. simpl. munfold. by rewrite app_nil_r.
Qed.

Lemma post_wait_inv p s s' :
  post_wait build p s = (s', Ok tt) →
  ∃ ws, queued (heap s) p ws ∧
        s' = mkState (drain p (heap s)) (world s) (trace s ++ work_events ws).
Proof.
  intros H.
  assert (∃ ws, queued (heap s) p ws) as [ws Hq].
  { destruct p as [l|]; [|by exists []].
    unfold post_wait in H. apply bind_inv_ok in H as (s1 & wl & Hd & H).
    apply run_work_inv in H as [ws Hws]. exists ws, wl. split; [|done].
    revert Hd. munfold. simpl. destruct (heap s !! l); [|done]. by intros [= _ ->]. }
  exists ws. split; [done|]. rewrite (post_wait_ok _ _ _ Hq) in H. congruence.
Qed.

Lemma Request_wait_ok
    (this : Request) (s s1 : State) (prior' : option Request)
    (w' : MPI_World) (r' : request) (st : status) (ws : list PostWaitWork) :
  match _prior_request this with
  | Some p => ∃ st_p p', Request_wait build p s = (s1, Ok (st_p, p')) ∧ prior' = Some p'
  | None => s1 = s ∧ prior' = None
  end →
  MPI_Wait (world s1) (_request this) = (w', r', st, MPI_SUCCESS) →
  queued (heap s1) (post_wait_work this) ws →
  Request_wait build this s =
    (mkState (drain (post_wait_work this) (heap s1)) w'
             (trace s1 ++ [EvWait (_request this)] ++ work_events ws),
     Ok (mkStatus st, mkRequest r' prior' (post_wait_work this))).
Proof.
  intros Hprior Hwait Hq. destruct this as [r prior p]. simpl in *.
  assert (match prior with
          | Some p => '(_, p') ← Request_wait build p; mret (Some p')
          | None => mret None
          end s = (s1, Ok prior')) as Hp.
  { destruct prior as [q|].
    - destruct Hprior as (st_p & p' & Hw & ->). by rewrite (bind_ok _ _ _ _ _ Hw).
    - by destruct Hprior as [-> ->]. }
  rewrite (bind_ok _ _ _ _ _ Hp).
  assert (mpi_wait r s1 =
          (mkState (heap s1) w' (trace s1 ++ [EvWait r]), Ok (r', st, MPI_SUCCESS))) as Hm.
  { unfold mpi_wait. by rewrite Hwait. }
  rewrite (bind_ok _ _ _ _ _ Hm). simpl.
  rewrite (bind_ok _ _ (mkState (heap s1) w' (trace s1 ++ [EvWait r]))
             (mkState (heap s1) w' (trace s1 ++ [EvWait r])) tt) by done.
  erewrite bind_ok by (by apply (post_wait_ok p ws)). simpl.
  by rewrite <- app_assoc.
Qed.

(** C1. [wait] first waits on the prior link when there is one (reaching the
    state [s1]), then blocks on the handle's own request with [MPI_Wait],
    which yields the status [st], then runs and deletes every queued work
    item from the front to the back, each once, leaving a null entry in its
    place, and returns the status of its own request: the status of the
    prior link is dropped. *)
Theorem wait_prior_then_own_then_work
    (this : Request) (s s1 : State) (prior' : option Request)
    (w' : MPI_World) (r' : request) (st : status) (ws : list PostWaitWork) :
  match _prior_request this with
  | Some p => ∃ st_p p', Request_wait build p s = (s1, Ok (st_p, p')) ∧ prior' = Some p'
  | None => s1 = s ∧ prior' = None
  end →
  MPI_Wait (world s1) (_request this) = (w', r', st, MPI_SUCCESS) →
  queued (heap s1) (post_wait_work this) ws →
  ∃ s',
    Request_wait build this s =
      (s', Ok (mkStatus st, mkRequest r' prior' (post_wait_work this))) ∧
    trace s' = trace s1 ++ [EvWait (_request this)] ++ work_events ws ∧
    world s' = w' ∧
    heap s' = drain (post_wait_work this) (heap s1) ∧
    ∀ l wl, post_wait_work this = Some l → heap s' !! l = Some wl →
            first wl = replicate (length ws) None.
Proof.
  intros Hprior Hwait Hq. eexists. split.
  { by apply (Request_wait_ok this s s1 prior' w' r' st ws). }
  simpl. repeat split.
  intros l wl Hl. rewrite Hl in *. simpl in *.
  destruct Hq as (wl0 & Hwl0 & Hitems). rewrite lookup_alter_eq, Hwl0.
  intros [= <-]. simpl. by rewrite Hitems, length_fmap.
Qed.

(** The work lists referenced along the chain of a handle, its own first. *)
Fixpoint work_lists (this : Request) : list loc :=
  match post_wait_work this with Some l => [l] | None => [] end ++
  match _prior_request this with Some p => work_lists p | None => [] end.

(** Every entry of the list at [l] has run (is null). *)
Definition all_run (h : gmap loc WorkList) (l : loc) : Prop :=
  ∀ wl, h !! l = Some wl → Forall (λ item, item = None) (first wl).

(** [s'] differs from [s] by native waits only. *)
Definition only_waits (s s' : State) : Prop :=
  heap s' = heap s ∧ ∃ qs, trace s' = trace s ++ (EvWait <$> qs).

Lemma only_waits_trans s1 s2 s3 :
  only_waits s1 s2 → only_waits s2 s3 → only_waits s1 s3.
Proof.
  intros [Hh1 [qs1 Ht1]] [Hh2 [qs2 Ht2]]. split; [congruence|].
  exists (qs1 ++ qs2). by rewrite Ht2, Ht1, fmap_app, app_assoc.
Qed.

Lemma Request_wait_eq this :
  Request_wait build this =
    (prior ← match _prior_request this with
             | Some p => '(_, p') ← Request_wait build p; mret (Some p')
             | None => mret None
             end;
     '(r, st, code) ← mpi_wait (_request this);
     libmesh_call_mpi code;;
     post_wait build (post_wait_work this);;
     mret (mkStatus st, mkRequest r prior (post_wait_work this))).
Proof. by destruct this. Qed.

Lemma drain_all_run p h l :
  p = Some l → all_run (drain p h) l.
Proof.
  intros -> wl. simpl. rewrite lookup_alter_eq.
  destruct (h !! l) as [wl0|]; [|done]. intros [= <-]. simpl.
  apply Forall_replicate. done.
Qed.

Lemma drain_other p h l :
  p ≠ Some l → drain p h !! l = h !! l.
Proof.
  destruct p as [l0|]; [|done]. intros Hne. simpl.
  apply lookup_alter_ne. congruence.
Qed.

Lemma wait_ok_inv this s s' st this' :
  Request_wait build this s = (s', Ok (st, this')) →
  ∃ s1 prior' ws,
    match _prior_request this with
    | Some p => ∃ st_p p', Request_wait build p s = (s1, Ok (st_p, p')) ∧ prior' = Some p'
    | None => s1 = s ∧ prior' = None
    end ∧
    queued (heap s1) (post_wait_work this) ws ∧
    heap s' = drain (post_wait_work this) (heap s1) ∧
    trace s' = trace s1 ++ [EvWait (_request this)] ++ work_events ws ∧
    _prior_request this' = prior' ∧
    post_wait_work this' = post_wait_work this.
Proof.
  rewrite Request_wait_eq. intros H.
  apply bind_inv_ok in H as (s1 & prior' & Hp & H).
  apply bind_inv_ok in H as (s2 & [[r st'] code] & Hm & H).
  apply bind_inv_ok in H as (s3 & [] & Hc & H).
  apply bind_inv_ok in H as (s4 & [] & Hw & H).
  injection H as <- <- <-.
  assert (s3 = s2) as ->.
  { revert Hc. munfold. destruct (decide _); [|done]. by intros [= ->]. }
  assert (heap s2 = heap s1 ∧ trace s2 = trace s1 ++ [EvWait (_request this)])
    as [Hh2 Ht2].
  { revert Hm. unfold mpi_wait.
    destruct (MPI_Wait _ _) as [[[? ?] ?] ?]. by intros [= <- _ _ _]. }
  apply post_wait_inv in Hw as (ws & Hq & ->).
  exists s1, prior', ws. simpl. rewrite Hh2 in *. rewrite Ht2, <- app_assoc.
  repeat split; try done.
  destruct (_prior_request this) as [p|].
  - apply bind_inv_ok in Hp as (s0 & [st_p p'] & Hp & Hr).
    injection Hr as <- <-. eauto.
  - by injection Hp as <- <-.
Qed.

Lemma wait_keeps_lists this : ∀ s s' st this',
  Request_wait build this s = (s', Ok (st, this')) →
  work_lists this' = work_lists this.
Proof.
  induction this as [r w|r p w IH] using Request_ind; intros s s' st this' H;
    apply wait_ok_inv in H as (s1 & prior' & ws & Hp & _ & _ & _ & Hpr & Hw);
    destruct this' as [r' pr' w']; simpl in *; subst.
  - by destruct Hp as [_ ->].
  - destruct Hp as (st_p & p' & Hp & ->). by rewrite (IH _ _ _ _ Hp).
Qed.

Lemma wait_drains this : ∀ s s' st this',
  Request_wait build this s = (s', Ok (st, this')) →
  ∀ l, l ∈ work_lists this → all_run (heap s') l.
Proof.
  induction this as [r w|r p w IH] using Request_ind; intros s s' st this' H l Hl;
    apply wait_ok_inv in H as (s1 & prior' & ws & Hp & _ & Hh & _ & _ & _);
    simpl in *; rewrite Hh.
  - rewrite app_nil_r in Hl. destruct w as [l0|]; [|by apply elem_of_nil in Hl].
    apply list_elem_of_singleton in Hl as ->. by apply drain_all_run.
  - destruct Hp as (st_p & p' & Hp & ->).
    destruct (decide (w = Some l)) as [Hw|Hw]; [by apply drain_all_run|].
    intros wl. rewrite drain_other by done. apply (IH _ _ _ _ Hp).
    apply elem_of_app in Hl as [Hl|Hl]; [|done].
    destruct w as [l0|]; [|by apply elem_of_nil in Hl].
    apply list_elem_of_singleton in Hl. congruence.
Qed.

Lemma post_wait_all_run p s s' (res : result unit) :
  (∀ l, p = Some l → all_run (heap s) l) →
  post_wait build p s = (s', res) → s' = s.
Proof.
  destruct p as [l|]; simpl; [|by intros _ [= <-]].
  intros Hrun. specialize (Hrun l eq_refl). unfold all_run in Hrun. munfold.
  simpl. destruct (heap s !! l) as [[items c]|]; [|by intros [= <-]].
  specialize (Hrun _ eq_refl). simpl in Hrun.
  destruct Hrun as [|item items Hitem _]; simpl; [by intros [= <-]|].
  subst item. munfold. by destruct (strict build); simpl; intros [= <-].
Qed.

Lemma wait_all_run this : ∀ s s' res,
  (∀ l, l ∈ work_lists this → all_run (heap s) l) →
  Request_wait build this s = (s', res) → only_waits s s'.
Proof.
  assert (∀ r w prior' s1 s' res,
            (∀ l, w = Some l → all_run (heap s1) l) →
            ('(r', st, code) ← mpi_wait r;
             libmesh_call_mpi code;;
             post_wait build w;;
             mret (mkStatus st, mkRequest r' prior' w)) s1 = (s', res) →
            only_waits s1 s') as Hown.
  { intros r w prior' s1 s' res Hrun H.
    assert (∀ r' st code, mpi_wait r s1 = (s', Ok (r', st, code)) → only_waits s1 s')
      as Hmpi.
    { unfold mpi_wait. destruct (MPI_Wait _ _) as [[[? ?] ?] ?].
      intros ? ? ? [= <- _ _ _]. split; [done|]. by exists [r]. }
    apply bind_inv in H as [(e & H & _)|(s2 & [[r' st] code] & Hm & H)].
    { revert H. unfold mpi_wait. by destruct (MPI_Wait _ _) as [[[? ?] ?] ?]. }
    assert (only_waits s1 s2) as Hs2.
    { revert Hm. unfold mpi_wait. destruct (MPI_Wait _ _) as [[[? ?] ?] ?].
      intros [= <- _ _ _]. split; [done|]. by exists [r]. }
    apply bind_inv in H as [(e & H & _)|(s3 & [] & Hc & H)].
    { revert H. munfold. destruct (decide _); [done|]. by intros [= <-]. }
    assert (s3 = s2) as ->.
    { revert Hc. munfold. destruct (decide _); [|done]. by intros [= ->]. }
    assert (∀ res', post_wait build w s2 = (s', res') → only_waits s1 s') as Hpost.
    { intros res' Hw. apply post_wait_all_run in Hw as ->; [done|].
      intros l ->. destruct Hs2 as [-> _]. by apply Hrun. }
    apply bind_inv in H as [(e & H & _)|(s4 & [] & Hw & H)]; [by eapply Hpost|].
    injection H as <- <-. by eapply Hpost. }
  induction this as [r w|r p w IH] using Request_ind; intros s s' res Hrun;
    rewrite Request_wait_eq; simpl; intros H.
  - apply (Hown r w None s s' res); [|done].
    intros l ->. apply Hrun. simpl. left.
  - apply bind_inv in H as [(e & H & _)|(s1 & prior' & Hp & H)].
    + apply bind_inv in H as [(e' & H & _)|(s0 & [st_p p'] & _ & H)]; [|done].
      apply (IH _ _ _) in H; [done|]. intros l Hl. apply Hrun. simpl.
      apply elem_of_app. by right.
    + apply bind_inv_ok in Hp as (s0 & [st_p p'] & Hp & Hr).
      injection Hr as <- <-.
      assert (only_waits s s0) as Hs0.
      { apply (IH _ _ _) in Hp; [done|]. intros l Hl. apply Hrun. simpl.
        apply elem_of_app. by right. }
      apply (only_waits_trans _ _ _ Hs0).
      apply (Hown r w (Some p') s0 s' res); [|done].
      intros l ->. destruct Hs0 as [-> _]. apply Hrun. simpl. left.
Qed.

(** C8. After a [wait] that completed, a second [wait] on the same handle
    performs native waits only: no work item is run (or deleted) again, and
    the work lists are left as the first [wait] left them, so every item has
    run exactly once over the two calls. *)
Theorem wait_again_runs_nothing
    (this this1 : Request) (s s1 s2 : State) (st : Status)
    (res : result (Status * Request)) :
  Request_wait build this s = (s1, Ok (st, this1)) →
  Request_wait build this1 s1 = (s2, res) →
  heap s2 = heap s1 ∧ ∃ qs, trace s2 = trace s1 ++ (EvWait <$> qs).
Proof.
  intros H1 H2. apply (wait_all_run this1 s1 s2 res); [|done].
  intros l Hl. rewrite (wait_keeps_lists _ _ _ _ _ H1) in Hl.
  by apply (wait_drains _ _ _ _ _ H1).
Qed.

End Wait.

(** ** Shared ownership of the work lists *)

Section Ownership.
Context {mpi : MPI} (build : Build).

(** One more handle shares the list. *)
Definition retain (wl : WorkList) : WorkList :=
  mkWorkList (first wl) (uint (second wl + 1)).

Definition retained (p : option loc) (h : gmap loc WorkList) : gmap loc WorkList :=
  match p with
  | Some l => alter retain l h
  | None => h
  end.

Definition retained_all (ls : list loc) (h : gmap loc WorkList) : gmap loc WorkList :=
  foldr (λ l, alter retain l) h ls.

(** One handle less shares the list; it is deleted when none is left. *)
Definition released (p : option loc) (h : gmap loc WorkList) : gmap loc WorkList :=
  match p with
  | Some l =>
      match h !! l with
      | Some wl =>
          if decide (uint (second wl - 1) = 0) then delete l h
          else <[l := mkWorkList (first wl) (uint (second wl - 1))]> h
      | None => h
      end
  | None => h
  end.

(** The pointer is valid, and where the build checks it, the list has no
    work left that has not run when its last handle lets go of it. *)
Definition releasable (p : option loc) (h : gmap loc WorkList) : Prop :=
  match p with
  | Some l =>
      ∃ wl, h !! l = Some wl ∧
            (DEBUG build = true → strict build = true →
             uint (second wl - 1) = 0 → Forall (λ item, item = None) (first wl))
  | None => True
  end.

(** The pointer as [cleanup] leaves it. *)
Definition cleaned (p : option loc) (h : gmap loc WorkList) : option loc :=
  match p with
  | Some l =>
      match h !! l with
      | Some wl => if decide (uint (second wl - 1) = 0) then None else Some l
      | None => Some l
      end
  | None => None
  end.

Definition valid (p : option loc) (h : gmap loc WorkList) : Prop :=
  ∀ l, p = Some l → is_Some (h !! l).

Lemma state_eta (s : State) : mkState (heap s) (world s) (trace s) = s.
Proof. by destruct s. Qed.

Lemma acquire_ok p s :
  valid p (heap s) →
  acquire p s = (mkState (retained p (heap s)) (world s) (trace s), Ok tt).
Proof.
  destruct p as [l|]; simpl; [|by rewrite state_eta].
  intros Hv. destruct (Hv l eq_refl) as [wl Hl]. munfold. simpl. rewrite Hl.
  simpl. by rewrite (alter_lookup_insert _ _ _ _ Hl).
Qed.

Lemma assert_all_done_ok items s :
  (strict build = true → Forall (λ item, item = None) items) →
  assert_all_done build items s = (s, Ok tt).
Proof.
  induction items as [|item items IH]; [done|]. intros H. simpl. munfold.
  destruct (strict build); simpl.
  - specialize (H eq_refl). inversion H as [|? ? Hitem Hitems]; subst.
    simpl. by apply IH.
  - by apply IH.
Qed.

Lemma cleanup_ok this s :
  releasable (post_wait_work this) (heap s) →
  cleanup build this s =
    (mkState (released (post_wait_work this) (heap s)) (world s) (trace s),
     Ok (mkRequest (_request this) (_prior_request this)
                   (cleaned (post_wait_work this) (heap s)))).
Proof.
  destruct this as [r prior [l|]], s as [h w t]; simpl; [|done].
  intros (wl & Hl & Hdone). unfold cleanup. simpl. munfold. simpl.
  rewrite Hl. simpl. destruct (decide (uint (second wl - 1) = 0)) as [Hz|Hz].
  - assert ((if DEBUG build
             then assert_all_done build (first wl)
             else λ s, (s, Ok tt))
              (mkState (<[l:=mkWorkList (first wl) (uint (second wl - 1))]> h) w t) =
            (mkState (<[l:=mkWorkList (first wl) (uint (second wl - 1))]> h) w t, Ok tt))
      as ->.
    { destruct (DEBUG build); [|done]. apply assert_all_done_ok. auto. }
    simpl. by rewrite delete_insert_eq.
  - done.
Qed.

Definition all_null (items : list (option PostWaitWork)) : bool :=
  forallb is_null items.

Lemma all_null_Forall items :
  all_null items = true ↔ Forall (λ item, item = None) items.
Proof.
  induction items as [|[w|] items IH]; simpl.
  - split; [constructor | done].
  - split; [done | by inversion 1].
  - rewrite IH. split; [by constructor | by inversion 1].
Qed.

Lemma assert_all_done_fail items s :
  strict build = true → ¬ Forall (λ item, item = None) items →
  assert_all_done build items s = (s, Err (InvariantViolation assert_work_done)).
Proof.
  intros Hs. induction items as [|item items IH]; intros H.
  - destruct H. constructor.
  - simpl. munfold. rewrite Hs. destruct item as [w|]; [done|]. simpl.
    apply IH. contradict H. by constructor.
Qed.

(** [cleanup] on a valid pointer: the count is decremented; when it reaches
    zero the list is deleted and the pointer reset, after the check of the
    items in a build with [DEBUG] and assertions; otherwise the handle keeps
    its pointer. *)
Lemma cleanup_spec this s l wl :
  post_wait_work this = Some l → heap s !! l = Some wl →
  cleanup build this s =
    if decide (uint (second wl - 1) = 0) then
      if DEBUG build && strict build && negb (all_null (first wl))
      then (mkState (<[l := mkWorkList (first wl) 0]> (heap s)) (world s) (trace s),
            Err (InvariantViolation assert_work_done))
      else (mkState (delete l (heap s)) (world s) (trace s),
            Ok (mkRequest (_request this) (_prior_request this) None))
    else (mkState (<[l := mkWorkList (first wl) (uint (second wl - 1))]> (heap s))
                  (world s) (trace s),
          Ok this).
Proof.
  intros Hp Hl.
  destruct (DEBUG build && strict build && negb (all_null (first wl))) eqn:Hchk.
  - apply andb_prop in Hchk as [Hchk Hnull]. apply andb_prop in Hchk as [Hd Hs].
    destruct (decide (uint (second wl - 1) = 0)) as [Hz|Hz].
    + unfold cleanup. rewrite Hp. munfold. simpl. rewrite Hl. simpl.
      rewrite Hz, Hd. simpl. rewrite assert_all_done_fail; [done|done|].
      rewrite <- all_null_Forall. by destruct (all_null (first wl)).
    + rewrite cleanup_ok; rewrite Hp; simpl; rewrite Hl.
      * rewrite !decide_False by done. by destruct this; simpl in *; subst.
      * exists wl. split; [done|]. by intros _ _ ?.
  - rewrite cleanup_ok; rewrite Hp; simpl; rewrite Hl.
    + destruct (decide (uint (second wl - 1) = 0)); [done|].
      by destruct this; simpl in *; subst.
    + exists wl. split; [done|]. intros Hd Hs _. rewrite Hd, Hs in Hchk.
      simpl in Hchk. apply all_null_Forall. by destruct (all_null (first wl)).
Qed.

Lemma cleanup_keeps this s s' this' :
  cleanup build this s = (s', Ok this') →
  _request this' = _request this ∧ _prior_request this' = _prior_request this.
Proof.
  unfold cleanup. destruct (post_wait_work this) as [l|]; [|by intros [= _ <-]].
  intros H. apply bind_inv_ok in H as (s1 & wl & _ & H).
  apply bind_inv_ok in H as (s2 & [] & _ & H).
  destruct (decide _); [|by injection H as _ <-].
  apply bind_inv_ok in H as (s3 & [] & _ & H).
  apply bind_inv_ok in H as (s4 & [] & _ & H). by injection H as _ <-.
Qed.

Lemma Request_copy_eq other :
  Request_copy other =
    (prior ← match _prior_request other with
             | Some p => p' ← Request_copy p; mret (Some p')
             | None => mret None
             end;
     acquire (post_wait_work other);;
     mret (mkRequest (_request other) prior (post_wait_work other))).
Proof. by destruct other. Qed.

Lemma retained_all_is_Some ls h l :
  is_Some (retained_all ls h !! l) ↔ is_Some (h !! l).
Proof.
  induction ls as [|l0 ls IH]; simpl; [done|]. rewrite <- IH.
  destruct (decide (l0 = l)) as [->|Hne].
  - rewrite lookup_alter_eq. by rewrite fmap_is_Some.
  - by rewrite lookup_alter_ne.
Qed.

(** The copy constructor succeeds on valid pointers: the copy is equal to the
    original link by link, and every list of the chain is retained once. *)
Lemma Request_copy_ok other : ∀ s,
  (∀ l, l ∈ work_lists other → is_Some (heap s !! l)) →
  Request_copy other s =
    (mkState (retained_all (work_lists other) (heap s)) (world s) (trace s),
     Ok other).
Proof.
  induction other as [r w|r p w IH] using Request_ind; intros s Hv;
    rewrite Request_copy_eq; simpl.
  - rewrite (bind_ok _ _ s s None) by done.
    erewrite bind_ok; cycle 1.
    { apply acquire_ok. intros l ->. apply Hv. simpl. left. }
    simpl. by destruct w.
  - erewrite bind_ok; cycle 1.
    { erewrite bind_ok; [done|]. apply IH. intros l Hl. apply Hv. simpl.
      apply elem_of_app. by right. }
    erewrite bind_ok; cycle 1.
    { apply acquire_ok. intros l ->. simpl. apply retained_all_is_Some, Hv.
      simpl. left. }
    simpl. by destruct w.
Qed.

End Ownership.

(** ** Assignment and chaining *)

Section Chaining.
Context {mpi : MPI} (build : Build).

Lemma add_prior_request_ok this req s :
  _prior_request req = None →
  valid (post_wait_work req) (heap s) →
  add_prior_request build this req s =
    (mkState (retained (post_wait_work req) (heap s)) (world s) (trace s),
     Ok (mkRequest (_request this)
           (Some (mkRequest (_request req) (_prior_request this)
                            (post_wait_work req)))
           (post_wait_work this))).
Proof.
  intros Hnp Hv. unfold add_prior_request. rewrite Hnp. simpl.
  rewrite (bind_ok _ _ s s tt) by (munfold; by destruct (strict build)).
  erewrite bind_ok; cycle 1.
  { apply Request_copy_ok. destruct req as [r prior [l|]]; simpl in *; subst.
    - intros l' ->%list_elem_of_singleton. by apply Hv.
    - by intros l' ?%elem_of_nil. }
  rewrite Hnp. simpl. destruct req as [r prior [l|]]; simpl in *; by subst.
Qed.

(** C6, as the code has it. In a build that checks assertions,
    [add_prior_request] of a request that owns a prior link fails with
    [InvariantViolation] and changes nothing. Of a request without a prior
    link it succeeds in every build: the new head of the chain is a copy of
    the request (the work list retained once more) that owns the former head
    of the chain as its own prior. *)
Theorem add_prior_request_checked (this req : Request) (s : State) :
  valid (post_wait_work req) (heap s) →
  (strict build = true → is_Some (_prior_request req) →
   add_prior_request build this req s =
     (s, Err (InvariantViolation assert_no_prior))) ∧
  (_prior_request req = None →
   add_prior_request build this req s =
     (mkState (retained (post_wait_work req) (heap s)) (world s) (trace s),
      Ok (mkRequest (_request this)
            (Some (mkRequest (_request req) (_prior_request this)
                             (post_wait_work req)))
            (post_wait_work this)))).
Proof.
  intros Hv. split.
  - intros Hs [p Hp]. unfold add_prior_request. rewrite Hp. munfold.
    by rewrite Hs.
  - intros Hnp. by apply add_prior_request_ok.
Qed.

(** C7. Assigning a native handle lets go of the work list (its count is
    decremented, and the list is deleted when the count reaches zero), stores
    the assigned handle, and leaves the prior chain attached; the MPI world,
    the trace and the other work lists are as before. *)
Theorem assign_native_keeps_prior (this : Request) (r : request) (s : State) :
  releasable build (post_wait_work this) (heap s) →
  Request_assign_native build this r s =
    (mkState (released (post_wait_work this) (heap s)) (world s) (trace s),
     Ok (mkRequest r (_prior_request this) None)).
Proof.
  intros Hr. unfold Request_assign_native.
  by rewrite (bind_ok _ _ _ _ _ (cleanup_ok build this s Hr)).
Qed.

(** C10. Assigning from a request that owns no prior link leaves the prior
    chain of the target as it was, whether the source is another object or
    the target itself. From another object, the native handle and the work
    list pointer are replaced by those of the source: the former list is let
    go of and the new one retained. *)
Theorem assign_without_prior_keeps_chain
    (this : Request) (other : reference) (s : State) :
  _prior_request (resolve this other) = None →
  (∀ s' this', Request_assign build this other s = (s', Ok this') →
               _prior_request this' = _prior_request this) ∧
  (∀ o, other = Other o →
        releasable build (post_wait_work this) (heap s) →
        valid (post_wait_work o) (released (post_wait_work this) (heap s)) →
        Request_assign build this other s =
          (mkState (retained (post_wait_work o)
                      (released (post_wait_work this) (heap s)))
                   (world s) (trace s),
           Ok (mkRequest (_request o) (_prior_request this) (post_wait_work o)))).
Proof.
  intros Hnp. split.
  - intros s' this' H. unfold Request_assign in H.
    apply bind_inv_ok in H as (s1 & this1 & Hc & H).
    apply cleanup_keeps in Hc as [_ Hprior].
    assert (_prior_request (resolve this1 other) = None) as Hnp1.
    { destruct other; simpl in *; congruence. }
    simpl in H. 
    assert (_prior_request
              (resolve
                 (mkRequest
                    (_request (resolve this1 other)) (_prior_request this1)
                    (post_wait_work
                       (resolve
                          (mkRequest (_request (resolve this1 other))
                             (_prior_request this1) (post_wait_work this1))
                          other))) other) = None) as Hnp2.
    { destruct other; simpl in *; congruence. }
    rewrite Hnp2 in H.
    apply bind_inv_ok in H as (s2 & this2 & [= <- <-] & H).
    apply bind_inv_ok in H as (s3 & [] & _ & [= _ <-]). done.
  - intros o -> Hr Hv. simpl in Hnp. unfold Request_assign.
    rewrite (bind_ok _ _ _ _ _ (cleanup_ok build this s Hr)). simpl.
    rewrite Hnp.
    erewrite bind_ok by done. simpl.
    erewrite bind_ok by (by apply acquire_ok). done.
Qed.

End Chaining.

(** ** Completion order of a chain *)

Section Order.
Context {mpi : MPI} (build : Build).

(** A link of a chain, as [wait] sees it: its native request and its work
    list pointer. *)
Definition node : Type := request * option loc.

Definition node_of (this : Request) : node :=
  (_request this, post_wait_work this).

(** The links of a chain in the order of their completion: the oldest
    attached first, the handle itself last. *)
Fixpoint wait_order (this : Request) : list node :=
  match _prior_request this with
  | Some p => wait_order p
  | None => []
  end ++ [node_of this].

(** The links already attached to a handle, the oldest first. *)
Definition priors (this : Request) : list node :=
  match _prior_request this with
  | Some p => wait_order p
  | None => []
  end.

(** A sequence of [add_prior_request] calls on one handle. *)
Fixpoint add_prior_requests (this : Request) (reqs : list Request) : M Request :=
  match reqs with
  | [] => mret this
  | req :: reqs =>
      this ← add_prior_request build this req;
      add_prior_requests this reqs
  end.

(** The work items behind a pointer, in the order of the vector. *)
Definition queue (h : gmap loc WorkList) (p : option loc) : list PostWaitWork :=
  match p with
  | Some l =>
      match h !! l with
      | Some wl => omap id (first wl)
      | None => []
      end
  | None => []
  end.

(** Completing a link: its native wait, then its work in order. *)
Definition node_events (h : gmap loc WorkList) (n : node) : list event :=
  EvWait n.1 :: work_events (queue h n.2).

Definition order_events (h : gmap loc WorkList) (ns : list node) : list event :=
  concat (node_events h <$> ns).

(** The pointer is valid and no entry of its vector is null. *)
Definition pending (h : gmap loc WorkList) (p : option loc) : Prop :=
  match p with
  | Some l => ∃ wl, h !! l = Some wl ∧ Forall is_Some (first wl)
  | None => True
  end.

Definition lists_of (ns : list node) : list loc := omap snd ns.

Definition same_items (h h' : gmap loc WorkList) : Prop :=
  ∀ l, first <$> h' !! l = first <$> h !! l.

Lemma all_Some_omap (items : list (option PostWaitWork)) :
  Forall is_Some items → items = Some <$> omap id items.
Proof.
  induction 1 as [|item items [w ->] _ IH]; [done|]. cbn. f_equal. exact IH.
Qed.

Lemma pending_queued h p : pending h p → queued h p (queue h p).
Proof.
  destruct p as [l|]; simpl; [|done]. intros (wl & Hl & Hall).
  exists wl. rewrite Hl. split; [done|]. by apply all_Some_omap.
Qed.

Lemma same_items_queue h h' p : same_items h h' → queue h' p = queue h p.
Proof.
  intros Hsame. destruct p as [l|]; simpl; [|done]. specialize (Hsame l).
  destruct (h' !! l), (h !! l); simpl in *; congruence.
Qed.

Lemma same_items_pending h h' p : same_items h h' → pending h p → pending h' p.
Proof.
  intros Hsame. destruct p as [l|]; simpl; [|done]. specialize (Hsame l).
  intros (wl & Hl & Hall). rewrite Hl in Hsame.
  destruct (h' !! l) as [wl'|]; [|done]. injection Hsame as Hf.
  exists wl'. by rewrite Hf.
Qed.

Lemma same_items_order_events h h' ns :
  same_items h h' → order_events h' ns = order_events h ns.
Proof.
  intros Hsame. unfold order_events. f_equal. apply list_fmap_ext.
  intros _ n _. unfold node_events. by rewrite (same_items_queue h h').
Qed.

Lemma same_items_retained h p : same_items h (retained p h).
Proof.
  intros l. destruct p as [l0|]; simpl; [|done].
  destruct (decide (l0 = l)) as [->|Hne].
  - rewrite lookup_alter_eq. by destruct (h !! l).
  - by rewrite lookup_alter_ne.
Qed.

Lemma lists_of_app ns1 ns2 : lists_of (ns1 ++ ns2) = lists_of ns1 ++ lists_of ns2.
Proof. apply omap_app. Qed.

Lemma order_events_app h ns1 ns2 :
  order_events h (ns1 ++ ns2) = order_events h ns1 ++ order_events h ns2.
Proof. unfold order_events. by rewrite fmap_app, concat_app. Qed.

(** [wait] completes the links of a chain in their order, when the native
    waits succeed and the links have distinct lists of pending work. *)
Lemma wait_in_order this : ∀ s,
  (∀ w q, (MPI_Wait w q).2 = MPI_SUCCESS) →
  NoDup (lists_of (wait_order this)) →
  Forall (λ n, pending (heap s) n.2) (wait_order this) →
  ∃ s' st this',
    Request_wait build this s = (s', Ok (st, this')) ∧
    trace s' = trace s ++ order_events (heap s) (wait_order this) ∧
    ∀ l, l ∉ lists_of (wait_order this) → heap s' !! l = heap s !! l.
Proof.
  intros s Hmpi. revert s.
  induction this as [r w|r p w IH] using Request_ind; intros s Hnd Hpend; simpl in *.
  - apply Forall_inv in Hpend. simpl in Hpend.
    destruct (MPI_Wait (world s) r) as [[[w' r'] st] code] eqn:Hw.
    pose proof (Hmpi (world s) r) as Hcode. rewrite Hw in Hcode. simpl in Hcode.
    subst code. eexists _, _, _. split.
    { apply (Request_wait_ok build (mkRequest r None w) s s None w' r' st
               (queue (heap s) w)); simpl; [done|done|by apply pending_queued]. }
    simpl. split.
    + unfold order_events, node_events. simpl. by rewrite app_nil_r.
    + intros l Hl. apply drain_other. intros ->. apply Hl. simpl. left.
  - rewrite lists_of_app in Hnd. apply NoDup_app in Hnd as (Hnd & Hdisj & _).
    apply Forall_app in Hpend as [Hpend Hown].
    apply Forall_inv in Hown. simpl in Hown.
    destruct (IH s Hnd Hpend) as (s1 & st_p & p' & Hp & Ht & Hframe).
    destruct (MPI_Wait (world s1) r) as [[[w' r'] st] code] eqn:Hw.
    pose proof (Hmpi (world s1) r) as Hcode. rewrite Hw in Hcode. simpl in Hcode.
    subst code.
    assert (∀ l, w = Some l → heap s1 !! l = heap s !! l) as Hsame.
    { intros l ->. apply Hframe. intros Hl. apply (Hdisj l Hl). simpl. left. }
    assert (queue (heap s1) w = queue (heap s) w) as Hqueue.
    { destruct w as [l|]; simpl; [|done]. by rewrite (Hsame l). }
    eexists _, _, _. split.
    { apply (Request_wait_ok build (mkRequest r (Some p) w) s s1 (Some p') w' r' st
               (queue (heap s) w)); simpl; [by eauto|done|].
      rewrite <- Hqueue. apply pending_queued.
      destruct w as [l|]; simpl in *; [|done]. by rewrite (Hsame l). }
    simpl. split.
    + rewrite Ht, order_events_app. unfold order_events, node_events.
      simpl. by rewrite app_nil_r, <- app_assoc.
    + intros l Hl. rewrite lists_of_app in Hl.
      rewrite drain_other.
      * apply Hframe. intros Hin. apply Hl, elem_of_app. by left.
      * intros ->. apply Hl, elem_of_app. right. simpl. left.
Qed.

Lemma add_prior_requests_ok reqs : ∀ this s,
  Forall (λ req, _prior_request req = None) reqs →
  Forall (λ req, valid (post_wait_work req) (heap s)) reqs →
  ∃ s1 this1,
    add_prior_requests this reqs s = (s1, Ok this1) ∧
    wait_order this1 = priors this ++ (node_of <$> reqs) ++ [node_of this] ∧
    same_items (heap s) (heap s1) ∧ trace s1 = trace s ∧ world s1 = world s.
Proof.
  induction reqs as [|req reqs IH]; intros this s Hnp Hv; simpl.
  - exists s, this. repeat split; try done. by destruct this.
  - apply Forall_cons in Hnp as [Hnp Hnps]. apply Forall_cons in Hv as [Hv Hvs].
    rewrite (bind_ok _ _ _ _ _ (add_prior_request_ok build this req s Hnp Hv)).
    edestruct (IH (mkRequest (_request this)
                     (Some (mkRequest (_request req) (_prior_request this)
                                      (post_wait_work req)))
                     (post_wait_work this))
                  (mkState (retained (post_wait_work req) (heap s)) (world s) (trace s)))
      as (s1 & this1 & Hrun & Horder & Hsame & Ht & Hw); [done| |].
    { simpl. eapply Forall_impl; [exact Hvs|]. intros req' Hv' l Hl.
      specialize (Hv' l Hl). destruct (post_wait_work req) as [l0|]; simpl; [|done].
      destruct (decide (l0 = l)) as [->|Hne].
      - rewrite lookup_alter_eq. by apply fmap_is_Some.
      - by rewrite lookup_alter_ne. }
    exists s1, this1. split; [done|]. simpl in *. split; [|split; [|done]].
    + rewrite Horder. unfold priors, node_of. simpl. by rewrite <- !app_assoc.
    + intros l. rewrite (Hsame l). apply same_items_retained.
Qed.

(** C2. After a sequence of [add_prior_request] calls on a handle, each
    with a request that owns no prior link, one [wait] on the handle
    completes the links it had, then the attached requests in the order of
    their attachment, each followed by its own work, and the handle itself
    with its work last. The native waits are taken to succeed, and the links
    to have distinct lists of pending work. *)
Theorem wait_completes_in_attachment_order
    (this : Request) (reqs : list Request) (s : State) :
  (∀ w q, (MPI_Wait w q).2 = MPI_SUCCESS) →
  Forall (λ req, _prior_request req = None) reqs →
  NoDup (lists_of (priors this ++ (node_of <$> reqs) ++ [node_of this])) →
  Forall (λ n, pending (heap s) n.2)
         (priors this ++ (node_of <$> reqs) ++ [node_of this]) →
  ∃ s1 this1 s2 st this2,
    add_prior_requests this reqs s = (s1, Ok this1) ∧
    trace s1 = trace s ∧
    Request_wait build this1 s1 = (s2, Ok (st, this2)) ∧
    trace s2 =
      trace s ++ order_events (heap s)
                   (priors this ++ (node_of <$> reqs) ++ [node_of this]).
Proof.
  intros Hmpi Hnp Hnd Hpend.
  destruct (add_prior_requests_ok reqs this s Hnp)
    as (s1 & this1 & Hadd & Horder & Hsame & Ht & Hw).
  { rewrite !Forall_app in Hpend. destruct Hpend as (_ & Hreqs & _).
    rewrite Forall_fmap in Hreqs. eapply Forall_impl; [exact Hreqs|].
    intros req Hreq l Hl. simpl in Hreq. rewrite Hl in Hreq.
    destruct Hreq as (wl & -> & _). done. }
  destruct (wait_in_order this1 s1 Hmpi) as (s2 & st & this2 & Hwait & Ht2 & _).
  { by rewrite Horder. }
  { rewrite Horder. eapply Forall_impl; [exact Hpend|].
    intros n. by apply same_items_pending. }
  exists s1, this1, s2, st, this2. repeat split; try done.
  by rewrite Ht2, Ht, Horder, (same_items_order_events (heap s) (heap s1)).
Qed.

End Order.

(** ** The reference counts *)

Section Counting.
Context {mpi : MPI} (build : Build).

(** How often [l] occurs in [ls]. *)
Definition count (l : loc) (ls : list loc) : nat :=
  length (filter (λ l', l' = l) ls).

Definition own (p : option loc) : list loc :=
  match p with Some l => [l] | None => [] end.

(** The heap counts exactly the handles that [n] counts: an allocated list
    has [n l] handles, at least one, and a list with no handle is not
    allocated. *)
Definition counted (h : gmap loc WorkList) (n : loc → nat) : Prop :=
  ∀ l, match h !! l with
       | Some wl => second wl = Z.of_nat (n l) ∧ (0 < n l)%nat
       | None => n l = 0%nat
       end.

Lemma count_app l ls1 ls2 : count l (ls1 ++ ls2) = (count l ls1 + count l ls2)%nat.
Proof. unfold count. by rewrite filter_app, length_app. Qed.

Lemma count_cons l l0 ls :
  count l (l0 :: ls) = ((if decide (l0 = l) then 1 else 0) + count l ls)%nat.
Proof. unfold count. rewrite filter_cons. by destruct (decide (l0 = l)). Qed.

Lemma count_own l p :
  count l (own p) = if decide (p = Some l) then 1%nat else 0%nat.
Proof.
  destruct p as [l0|]; simpl; [|done]. rewrite count_cons. unfold count. simpl.
  destruct (decide (l0 = l)), (decide (Some l0 = Some l)); try done; congruence.
Qed.

Lemma count_elem l ls : l ∈ ls → (0 < count l ls)%nat.
Proof.
  induction 1 as [l ls|l l0 ls _ IH]; rewrite count_cons.
  - rewrite decide_True by done. lia.
  - lia.
Qed.

Lemma counted_ext h n n' : (∀ l, n l = n' l) → counted h n → counted h n'.
Proof. intros Hn Hc l. specialize (Hc l). by rewrite <- Hn. Qed.

Lemma counted_valid h n p :
  counted h n → (∀ l, (count l (own p) ≤ n l)%nat) → valid p h.
Proof.
  intros Hc Hle l ->. specialize (Hc l). specialize (Hle l).
  rewrite count_own, decide_True in Hle by done.
  destruct (h !! l); [done | lia].
Qed.

Lemma uint_small z : 0 ≤ z < UINT_MODULUS → uint z = z.
Proof. apply Z.mod_small. Qed.

Lemma counted_retained h n p :
  counted h n →
  (∀ l, (count l (own p) ≤ n l)%nat) →
  (∀ l, Z.of_nat (count l (own p) + n l) < UINT_MODULUS) →
  counted (retained p h) (λ l, (count l (own p) + n l)%nat).
Proof.
  intros Hc Hle Hb l. pose proof (Hc l) as Hl. specialize (Hb l).
  specialize (Hle l). rewrite count_own in *.
  destruct p as [l0|]; simpl.
  - destruct (decide (l0 = l)) as [->|Hne].
    + rewrite lookup_alter_eq. rewrite decide_True in * by done.
      destruct (h !! l) as [wl|]; simpl; [|lia].
      destruct Hl as [-> Hpos]. rewrite uint_small by lia. lia.
    + rewrite lookup_alter_ne by done. rewrite decide_False by congruence.
      done.
  - exact Hl.
Qed.

Lemma counted_released h n p :
  counted h (λ l, (count l (own p) + n l)%nat) →
  (∀ l, Z.of_nat (count l (own p) + n l) < UINT_MODULUS) →
  counted (released p h) n.
Proof.
  intros Hc Hb l. pose proof (Hc l) as Hl. pose proof (Hb l) as Hbl.
  simpl in Hl. rewrite count_own in *.
  destruct p as [l0|]; simpl.
  - pose proof (Hc l0) as Hl0. pose proof (Hb l0) as Hbl0. cbn beta in Hl0.
    rewrite count_own, decide_True in Hl0, Hbl0 by done.
    destruct (h !! l0) as [wl|] eqn:E; [|lia].
    destruct Hl0 as [Hsec _].
    assert (uint (second wl - 1) = Z.of_nat (n l0)) as Hu.
    { rewrite uint_small by lia. lia. }
    rewrite Hu. destruct (decide (Z.of_nat (n l0) = 0)) as [Hz|Hz].
    + destruct (decide (l0 = l)) as [->|Hne].
      * rewrite lookup_delete_eq. lia.
      * rewrite lookup_delete_ne by done.
        by rewrite decide_False in Hl by congruence.
    + destruct (decide (l0 = l)) as [->|Hne].
      * rewrite lookup_insert_eq. simpl. lia.
      * rewrite lookup_insert_ne by done.
        by rewrite decide_False in Hl by congruence.
  - exact Hl.
Qed.

Lemma counted_retained_all ls : ∀ h n,
  counted h n →
  (∀ l, (count l ls ≤ n l)%nat) →
  (∀ l, Z.of_nat (count l ls + n l) < UINT_MODULUS) →
  counted (retained_all ls h) (λ l, (count l ls + n l)%nat).
Proof.
  induction ls as [|l0 ls IH]; intros h n Hc Hle Hb; simpl.
  - done.
  - apply (counted_ext _ (λ l, (count l (own (Some l0)) + (count l ls + n l))%nat)).
    { intros l. rewrite (count_cons l l0 ls). simpl. rewrite count_cons.
      unfold count. simpl. lia. }
    apply (counted_retained _ _ (Some l0)).
    + apply IH; [done| |].
      * intros l. specialize (Hle l). rewrite count_cons in Hle. lia.
      * intros l. specialize (Hb l). rewrite count_cons in Hb. lia.
    + intros l. specialize (Hle l). rewrite count_cons in Hle. rewrite count_own.
      destruct (decide (Some l0 = Some l)) as [[= ->]|]; [|lia].
      rewrite decide_True in Hle by done. lia.
    + intros l. specialize (Hb l). rewrite count_cons in Hb. rewrite count_own.
      destruct (decide (Some l0 = Some l)) as [[= ->]|]; [|lia].
      rewrite decide_True in Hb by done. lia.
Qed.

(** The lists referenced along an owned chain; none for a null pointer. *)
Definition chain_lists (prior : option Request) : list loc :=
  match prior with Some p => work_lists p | None => [] end.

Lemma work_lists_chain this :
  work_lists this = own (post_wait_work this) ++ chain_lists (_prior_request this).
Proof. by destruct this. Qed.

Lemma cleanup_fail this s l wl :
  post_wait_work this = Some l → heap s !! l = Some wl →
  DEBUG build = true → strict build = true →
  uint (second wl - 1) = 0 → ¬ Forall (λ item, item = None) (first wl) →
  cleanup build this s =
    (mkState (<[l := mkWorkList (first wl) 0]> (heap s)) (world s) (trace s),
     Err (InvariantViolation assert_work_done)).
Proof.
  intros Hp Hl Hd Hs Hz Hpend. unfold cleanup. rewrite Hp. munfold. simpl.
  rewrite Hl. simpl. rewrite Hz, Hd. simpl.
  by rewrite (assert_all_done_fail build _ _ Hs Hpend).
Qed.

Lemma cleanup_inv this s s' this' :
  valid (post_wait_work this) (heap s) →
  cleanup build this s = (s', Ok this') →
  heap s' = released (post_wait_work this) (heap s) ∧
  this' = mkRequest (_request this) (_prior_request this)
                    (cleaned (post_wait_work this) (heap s)).
Proof.
  intros Hv H.
  assert (releasable build (post_wait_work this) (heap s)) as Hr.
  { destruct (post_wait_work this) as [l|] eqn:Hp; [|done]. simpl.
    destruct (Hv l eq_refl) as [wl Hl]. exists wl. split; [done|].
    intros Hd Hs Hz.
    destruct (decide (Forall (λ item, item = None) (first wl))) as [|Hpend]; [done|].
    by rewrite (cleanup_fail this s l wl Hp Hl Hd Hs Hz Hpend) in H. }
  rewrite (cleanup_ok build this s Hr) in H. by injection H as <- <-.
Qed.

Lemma cleanup_counted this s s' this' n0 :
  counted (heap s) (λ l, (count l (work_lists this) + n0 l)%nat) →
  (∀ l, Z.of_nat (count l (work_lists this) + n0 l) < UINT_MODULUS) →
  cleanup build this s = (s', Ok this') →
  counted (heap s') (λ l, (count l (chain_lists (_prior_request this)) + n0 l)%nat) ∧
  this' = mkRequest (_request this) (_prior_request this)
                    (cleaned (post_wait_work this) (heap s)).
Proof.
  intros Hc Hb H.
  assert (counted (heap s)
            (λ l, (count l (own (post_wait_work this)) +
                   (count l (chain_lists (_prior_request this)) + n0 l))%nat)) as Hc'.
  { eapply counted_ext; [|exact Hc]. intros l. simpl.
    rewrite work_lists_chain, count_app. lia. }
  apply cleanup_inv in H as [Hh ->].
  - split; [|done]. rewrite Hh. apply counted_released; [done|].
    intros l. specialize (Hb l). rewrite work_lists_chain, count_app in Hb. lia.
  - eapply counted_valid; [exact Hc'|]. intros l. simpl. lia.
Qed.

Lemma Request_destroy_eq this :
  Request_destroy build this =
    (cleanup build this;;
     match _prior_request this with
     | Some p => Request_destroy build p
     | None => mret tt
     end).
Proof. by destruct this. Qed.

Lemma Request_copy_counted other s s' (res : result Request) n :
  counted (heap s) n →
  (∀ l, (count l (work_lists other) ≤ n l)%nat) →
  (∀ l, Z.of_nat (count l (work_lists other) + n l) < UINT_MODULUS) →
  Request_copy other s = (s', res) →
  res = Ok other ∧
  counted (heap s') (λ l, (count l (work_lists other) + n l)%nat).
Proof.
  intros Hc Hle Hb H. rewrite Request_copy_ok in H.
  - injection H as <- <-. split; [done|]. simpl. by apply counted_retained_all.
  - intros l Hl%count_elem. specialize (Hc l). specialize (Hle l).
    destruct (heap s !! l); [done|lia].
Qed.

Lemma acquire_counted p s s' (res : result unit) n :
  counted (heap s) n →
  (∀ l, (count l (own p) ≤ n l)%nat) →
  (∀ l, Z.of_nat (count l (own p) + n l) < UINT_MODULUS) →
  acquire p s = (s', res) →
  res = Ok tt ∧ counted (heap s') (λ l, (count l (own p) + n l)%nat).
Proof.
  intros Hc Hle Hb H. rewrite acquire_ok in H by (by eapply counted_valid).
  injection H as <- <-. split; [done|]. simpl. by apply counted_retained.
Qed.

(** The two heaps give every list the same count. *)
Definition same_counts (h h' : gmap loc WorkList) : Prop :=
  ∀ l, second <$> h' !! l = second <$> h !! l.

Lemma counted_same_counts h h' n : same_counts h h' → counted h n → counted h' n.
Proof.
  intros Hsame Hc l. specialize (Hsame l). specialize (Hc l).
  destruct (h' !! l) as [wl'|], (h !! l) as [wl|]; simpl in *; try done.
  injection Hsame as ->. done.
Qed.

Lemma same_counts_drain p h : same_counts h (drain p h).
Proof.
  intros l. destruct p as [l0|]; simpl; [|done].
  destruct (decide (l0 = l)) as [->|Hne].
  - rewrite lookup_alter_eq. by destruct (h !! l).
  - by rewrite lookup_alter_ne.
Qed.

Lemma wait_same_counts this : ∀ s s' st this',
  Request_wait build this s = (s', Ok (st, this')) →
  same_counts (heap s) (heap s').
Proof.
  induction this as [r w|r p w IH] using Request_ind; intros s s' st this' H;
    apply wait_ok_inv in H as (s1 & prior' & ws & Hp & _ & Hh & _);
    simpl in *; rewrite Hh.
  - destruct Hp as [-> _]. apply same_counts_drain.
  - destruct Hp as (st_p & p' & Hp & _). intros l.
    rewrite (same_counts_drain w (heap s1) l). by apply (IH _ _ _ _ Hp).
Qed.

Lemma same_counts_is_Some h h' l :
  same_counts h h' → is_Some (h !! l) → is_Some (h' !! l).
Proof.
  intros Hsame [wl Hl]. specialize (Hsame l). rewrite Hl in Hsame.
  destruct (h' !! l); [done | discriminate].
Qed.

Ltac at_loc l :=
  repeat match goal with
         | H : ∀ l' : loc, _ |- _ => specialize (H l)
         end;
  repeat (progress (rewrite ?work_lists_chain, ?count_app in *;
                    cbn [_request _prior_request post_wait_work chain_lists] in *)).

(** *** Safety *)

(** A failure by an access through a deleted work list. *)
Definition dangling (e : error) : Prop :=
  e = UndefinedBehaviour dangling_pointer.

(** [m], run from [s], returns in a state and with a value that satisfy
    [Q], or fails otherwise than by an access through a deleted list. *)
Definition safe {A} (m : M A) (s : State) (Q : State → A → Prop) : Prop :=
  match m s with
  | (s', Ok a) => Q s' a
  | (_, Err e) => ¬ dangling e
  end.

Lemma safe_ret {A} (a : A) s (Q : State → A → Prop) : Q s a → safe (mret a) s Q.
Proof. done. Qed.

Lemma safe_bind {A B} (m : M A) (f : A → M B) s
    (P : State → A → Prop) (Q : State → B → Prop) :
  safe m s P →
  (∀ s1 a, m s = (s1, Ok a) → P s1 a → safe (f a) s1 Q) →
  safe (m ≫= f) s Q.
Proof.
  unfold safe, mbind, M_bind. destruct (m s) as [s1 [a|e]]; [|done].
  intros HP Hf. by apply Hf.
Qed.

Lemma safe_ok {A} (m : M A) s s' a (Q : State → A → Prop) :
  safe m s Q → m s = (s', Ok a) → Q s' a.
Proof. unfold safe. intros H E. by rewrite E in H. Qed.

Lemma safe_err {A} (m : M A) s s' e (Q : State → A → Prop) :
  safe m s Q → m s = (s', Err e) → ¬ dangling e.
Proof. unfold safe. intros H E. by rewrite E in H. Qed.

Lemma libmesh_assert_safe a b s :
  safe (libmesh_assert build a b) s (λ s' _, s' = s).
Proof. unfold safe. munfold. by destruct (strict build); [destruct b|]. Qed.

Lemma cleanup_safe this s n0 :
  counted (heap s) (λ l, (count l (work_lists this) + n0 l)%nat) →
  (∀ l, Z.of_nat (count l (work_lists this) + n0 l) < UINT_MODULUS) →
  safe (cleanup build this) s
    (λ s' this',
       counted (heap s') (λ l, (count l (chain_lists (_prior_request this)) + n0 l)%nat) ∧
       this' = mkRequest (_request this) (_prior_request this)
                         (cleaned (post_wait_work this) (heap s))).
Proof.
  intros Hc Hb. unfold safe.
  destruct (cleanup build this s) as [s' [this'|e]] eqn:E.
  - by apply (cleanup_counted _ _ _ _ n0 Hc Hb).
  - assert (valid (post_wait_work this) (heap s)) as Hv.
    { eapply counted_valid; [exact Hc|]. intros l. at_loc l. lia. }
    destruct (post_wait_work this) as [l|] eqn:Hp.
    + destruct (Hv l eq_refl) as [wl Hl]. rewrite (cleanup_spec build this s l wl Hp Hl) in E.
      destruct (decide _); [|done].
      destruct (_ && _); [|done]. by injection E as _ <-.
    + unfold cleanup in E. by rewrite Hp in E.
Qed.

Lemma Request_destroy_safe this : ∀ s n0,
  counted (heap s) (λ l, (count l (work_lists this) + n0 l)%nat) →
  (∀ l, Z.of_nat (count l (work_lists this) + n0 l) < UINT_MODULUS) →
  safe (Request_destroy build this) s (λ s' _, counted (heap s') n0).
Proof.
  induction this as [r w|r p w IH] using Request_ind; intros s n0 Hc Hb;
    rewrite Request_destroy_eq;
    (eapply safe_bind; [by apply (cleanup_safe _ _ n0)|]);
    intros s1 this1 _ [Hc1 _]; simpl in *.
  - by apply safe_ret.
  - apply IH; [done|]. intros l. specialize (Hb l). rewrite count_app in Hb. lia.
Qed.

Lemma delete_prior_safe old s n0 :
  counted (heap s) (λ l, (count l (chain_lists old) + n0 l)%nat) →
  (∀ l, Z.of_nat (count l (chain_lists old) + n0 l) < UINT_MODULUS) →
  safe (delete_prior build old) s (λ s' _, counted (heap s') n0).
Proof.
  destruct old as [p|]; simpl.
  - apply Request_destroy_safe.
  - intros Hc _. by apply safe_ret.
Qed.

Lemma Request_copy_safe other s n :
  counted (heap s) n →
  (∀ l, (count l (work_lists other) ≤ n l)%nat) →
  (∀ l, Z.of_nat (count l (work_lists other) + n l) < UINT_MODULUS) →
  safe (Request_copy other) s
    (λ s' x, x = other ∧
             counted (heap s') (λ l, (count l (work_lists other) + n l)%nat)).
Proof.
  intros Hc Hle Hb. unfold safe.
  destruct (Request_copy other s) as [s' res] eqn:E.
  by apply (Request_copy_counted _ _ _ _ _ Hc Hle Hb) in E as [-> Hc'].
Qed.

Lemma acquire_safe p s n :
  counted (heap s) n →
  (∀ l, (count l (own p) ≤ n l)%nat) →
  (∀ l, Z.of_nat (count l (own p) + n l) < UINT_MODULUS) →
  safe (acquire p) s
    (λ s' _, counted (heap s') (λ l, (count l (own p) + n l)%nat)).
Proof.
  intros Hc Hle Hb. unfold safe. destruct (acquire p s) as [s' res] eqn:E.
  by apply (acquire_counted _ _ _ _ _ Hc Hle Hb) in E as [-> Hc'].
Qed.

Lemma Request_assign_native_safe this r s n0 :
  counted (heap s) (λ l, (count l (work_lists this) + n0 l)%nat) →
  (∀ l, Z.of_nat (count l (work_lists this) + n0 l) < UINT_MODULUS) →
  safe (Request_assign_native build this r) s
    (λ s' this', counted (heap s') (λ l, (count l (work_lists this') + n0 l)%nat)).
Proof.
  intros Hc Hb. unfold Request_assign_native.
  eapply safe_bind; [by apply (cleanup_safe _ _ n0)|].
  intros s1 this1 _ [Hc1 ->]. apply safe_ret.
  eapply counted_ext; [|exact Hc1]. intros l. by at_loc l.
Qed.

Lemma add_prior_request_safe this req s n0 :
  counted (heap s) (λ l, (count l (work_lists this) + n0 l)%nat) →
  (∀ l, (count l (work_lists req) ≤ count l (work_lists this) + n0 l)%nat) →
  (∀ l, 2 * Z.of_nat (count l (work_lists this) + n0 l) < UINT_MODULUS) →
  safe (add_prior_request build this req) s
    (λ s' this', counted (heap s') (λ l, (count l (work_lists this') + n0 l)%nat)).
Proof.
  intros Hc Hle Hb. unfold add_prior_request.
  eapply safe_bind; [apply libmesh_assert_safe|]. intros s1 [] _ ->.
  eapply safe_bind.
  { apply (Request_copy_safe _ _ _ Hc Hle). intros l; at_loc l; lia. }
  intros s2 x _ [-> Hc2]. eapply safe_bind.
  { apply (delete_prior_safe _ _
             (λ l, (count l (own (post_wait_work req)) +
                    (count l (work_lists this) + n0 l))%nat)).
    - eapply counted_ext; [|exact Hc2]. intros l. at_loc l. lia.
    - intros l. at_loc l. lia. }
  intros s3 [] _ Hc3. apply safe_ret.
  eapply counted_ext; [|exact Hc3]. intros l. at_loc l. lia.
Qed.

Lemma add_post_wait_work_safe this work s n0 :
  counted (heap s) (λ l, (count l (work_lists this) + n0 l)%nat) →
  safe (add_post_wait_work this work) s
    (λ s' this', counted (heap s') (λ l, (count l (work_lists this') + n0 l)%nat)).
Proof.
  intros Hc. unfold safe, add_post_wait_work.
  destruct (post_wait_work this) as [l0|] eqn:Hp; munfold; simpl.
  - assert (is_Some (heap s !! l0)) as [wl Hl].
    { eapply (counted_valid _ _ (Some l0)); [exact Hc| |done].
      intros l. at_loc l. rewrite Hp. lia. }
    rewrite Hl. cbn [heap]. apply (counted_same_counts (heap s)).
    + intros l. destruct (decide (l0 = l)) as [->|Hne].
      * by rewrite lookup_insert_eq, Hl.
      * by rewrite lookup_insert_ne.
    + eapply counted_ext; [|exact Hc]. intros l. at_loc l. by rewrite Hp.
  - rewrite lookup_insert_eq. cbn [heap]. rewrite insert_insert_eq.
    assert (heap s !! fresh (dom (heap s)) = None) as Hfresh.
    { apply not_elem_of_dom, is_fresh. }
    intros l. pose proof (Hc l) as Hl. simpl in Hl.
    rewrite work_lists_chain, count_app in *.
    cbn [_request _prior_request post_wait_work] in *. rewrite Hp in Hl.
    rewrite !count_own in *.
    destruct (decide (fresh (dom (heap s)) = l)) as [<-|Hne].
    + rewrite lookup_insert_eq. rewrite Hfresh in Hl. simpl in *.
      rewrite decide_True by done. lia.
    + rewrite lookup_insert_ne by done. rewrite decide_False by congruence.
      done.
Qed.

Lemma Request_assign_safe this other s n0 :
  counted (heap s) (λ l, (count l (work_lists this) + n0 l)%nat) →
  (∀ l, 2 * Z.of_nat (count l (work_lists this) + n0 l) < UINT_MODULUS) →
  match other with
  | Other o => ∀ l, (count l (work_lists o) ≤ n0 l)%nat
  | Self => True
  end →
  safe (Request_assign build this other) s
    (λ s' this', counted (heap s') (λ l, (count l (work_lists this') + n0 l)%nat)).
Proof.
  intros Hc Hb Hother. unfold Request_assign.
  assert (valid (post_wait_work this) (heap s)) as Hv.
  { eapply counted_valid; [exact Hc|]. intros l. at_loc l. lia. }
  eapply safe_bind.
  { apply (cleanup_safe _ _ n0 Hc). intros l; at_loc l; lia. }
  intros s1 this1 Hcl [Hc1 ->].
  apply (cleanup_inv _ _ _ _ Hv) in Hcl as [Hh1 _].
  destruct this as [r prior p]. cbn [_request _prior_request post_wait_work] in *.
  destruct other as [|[ro prioro po]];
    cbn [resolve _request _prior_request post_wait_work].
  - (* the source is the object assigned to *)
    eapply (safe_bind _ _ _
              (λ s2 this2,
                 counted (heap s2) (λ l, (count l (chain_lists prior) + n0 l)%nat) ∧
                 this2 = mkRequest r prior (cleaned p (heap s)))).
    { destruct prior as [q|].
      - eapply safe_bind.
        { apply (Request_copy_safe _ _ _ Hc1);
            [intros l; at_loc l; lia | intros l; at_loc l; lia]. }
        intros s4 q' _ [-> Hc4]. eapply safe_bind.
        { apply (delete_prior_safe (Some q) _ _ Hc4). intros l; at_loc l; lia. }
        intros s5 [] _ Hc5. by apply safe_ret.
      - by apply safe_ret. }
    intros s2 this2 _ [Hc2 ->]. cbn [post_wait_work]. eapply safe_bind.
    { apply (acquire_safe _ _ _ Hc2).
      - intros l. rewrite count_own. destruct (decide _) as [Hcl|]; [|lia].
        specialize (Hc1 l). rewrite Hh1 in Hc1.
        destruct p as [l0|]; [|done].
        destruct (Hv l0 eq_refl) as [wl Hwl]. cbn [cleaned released] in *.
        rewrite Hwl in *.
        destruct (decide (uint (second wl - 1) = 0)); [done|].
        injection Hcl as ->. rewrite lookup_insert_eq in Hc1.
        destruct Hc1 as [_ Hpos]. cbn beta in Hpos. lia.
      - intros l. rewrite count_own. destruct (decide _) as [Hcl|]; [|at_loc l; lia].
        assert (p = Some l) as ->.
        { destruct p as [l0|]; [|done].
          destruct (Hv l0 eq_refl) as [wl Hwl]. cbn [cleaned] in Hcl.
          rewrite Hwl in Hcl. by destruct (decide _). }
        at_loc l. rewrite count_own, decide_True in Hb by done. lia. }
    intros s3 [] _ Hc3. apply safe_ret.
    eapply counted_ext; [|exact Hc3]. intros l. at_loc l. lia.
  - (* the source is another object *)
    eapply (safe_bind _ _ _
              (λ s2 this2,
                 counted (heap s2)
                   (λ l, (count l (chain_lists (_prior_request this2)) + n0 l)%nat) ∧
                 post_wait_work this2 = po ∧
                 ∀ l, (count l (chain_lists (_prior_request this2)) ≤
                       count l (chain_lists prior) + count l (chain_lists prioro))%nat)).
    { destruct prioro as [q|].
      - eapply safe_bind.
        { apply (Request_copy_safe _ _ _ Hc1);
            [intros l; at_loc l; lia | intros l; at_loc l; lia]. }
        intros s4 q' _ [-> Hc4]. eapply safe_bind.
        { apply (delete_prior_safe prior _
                   (λ l, (count l (work_lists q) + n0 l)%nat)).
          - eapply counted_ext; [|exact Hc4]. intros l. simpl. lia.
          - intros l; at_loc l; lia. }
        intros s5 [] _ Hc5. apply safe_ret. repeat split; [done|].
        intros l. simpl. lia.
      - apply safe_ret. repeat split; [done|]. intros l. simpl. lia. }
    intros s2 this2 _ (Hc2 & Hpo & Hle). rewrite Hpo. eapply safe_bind.
    { apply (acquire_safe _ _ _ Hc2).
      - intros l; at_loc l; lia.
      - intros l. specialize (Hle l). at_loc l. lia. }
    intros s3 [] _ Hc3. apply safe_ret.
    eapply counted_ext; [|exact Hc3]. intros l.
    rewrite (work_lists_chain this2), count_app, Hpo. lia.
Qed.

Lemma run_work_err l items : ∀ i s s' e,
  is_Some (heap s !! l) →
  run_work build l i items s = (s', Err e) → ¬ dangling e.
Proof.
  induction items as [|[w|] items IH]; intros i s s' e [wl Hl]; simpl.
  - done.
  - munfold. simpl.
    destruct (strict build); simpl; rewrite Hl; simpl; apply IH; simpl;
      rewrite lookup_insert_eq; by eexists.
  - munfold. by destruct (strict build); simpl; intros [= _ <-].
Qed.

Lemma post_wait_err p s s' e :
  valid p (heap s) → post_wait build p s = (s', Err e) → ¬ dangling e.
Proof.
  destruct p as [l|]; simpl; [|done]. intros Hv.
  destruct (Hv l eq_refl) as [wl Hl]. munfold. simpl. rewrite Hl.
  apply run_work_err. by eexists.
Qed.

Lemma wait_err this : ∀ s s' e,
  (∀ l, l ∈ work_lists this → is_Some (heap s !! l)) →
  Request_wait build this s = (s', Err e) → ¬ dangling e.
Proof.
  assert (∀ r w prior' s1 s' e,
            valid w (heap s1) →
            ('(r', st, code) ← mpi_wait r;
             libmesh_call_mpi code;;
             post_wait build w;;
             mret (mkStatus st, mkRequest r' prior' w)) s1 = (s', Err e) →
            ¬ dangling e) as Hown.
  { intros r w prior' s1 s' e Hv H.
    apply bind_inv in H as [(e' & H & _)|(s2 & [[r' st] code] & Hm & H)].
    { revert H. unfold mpi_wait. by destruct (MPI_Wait _ _) as [[[? ?] ?] ?]. }
    assert (heap s2 = heap s1) as Hh2.
    { revert Hm. unfold mpi_wait. destruct (MPI_Wait _ _) as [[[? ?] ?] ?].
      by intros [= <- _ _ _]. }
    apply bind_inv in H as [(e' & H & [= ->])|(s3 & [] & Hc & H)].
    { revert H. munfold. destruct (decide _); [done|]. by intros [= _ <-]. }
    assert (s3 = s2) as ->.
    { revert Hc. munfold. destruct (decide _); [|done]. by intros [= ->]. }
    apply bind_inv in H as [(e' & H & [= ->])|(s4 & [] & Hw & H)]; [|done].
    apply post_wait_err in H; [done|]. by rewrite Hh2. }
  induction this as [r w|r p w IH] using Request_ind; intros s s' e Hv;
    rewrite Request_wait_eq; simpl; intros H.
  - apply (Hown r w None s s' e); [|done]. intros l ->. apply Hv. simpl. left.
  - apply bind_inv in H as [(e' & H & [= ->])|(s1 & prior' & Hp & H)].
    + apply bind_inv in H as [(e'' & H & [= ->])|(s0 & [st_p p'] & _ & H)]; [|done].
      apply (IH _ _ _) in H; [done|]. intros l Hl. apply Hv. simpl.
      apply elem_of_app. by right.
    + apply bind_inv_ok in Hp as (s0 & [st_p p'] & Hp & Hr).
      injection Hr as <- <-.
      apply (Hown r w (Some p') s0 s' e); [|done]. intros l ->.
      apply (same_counts_is_Some (heap s)); [by eapply wait_same_counts|].
      apply Hv. simpl. left.
Qed.

Lemma Request_wait_safe this s n :
  counted (heap s) n →
  (∀ l, (count l (work_lists this) ≤ n l)%nat) →
  safe (Request_wait build this) s
    (λ s' res, counted (heap s') n ∧ work_lists res.2 = work_lists this).
Proof.
  intros Hc Hle. unfold safe.
  destruct (Request_wait build this s) as [s' [[st this']|e]] eqn:E.
  - split.
    + apply (counted_same_counts (heap s)); [by eapply wait_same_counts|done].
    + by eapply wait_keeps_lists.
  - apply wait_err in E; [done|]. intros l Hl%count_elem.
    specialize (Hc l). specialize (Hle l). destruct (heap s !! l); [done|lia].
Qed.

End Counting.

(** ** Programs over several handles *)

Section Program.
Context {mpi : MPI} (build : Build).

(** The statements of a program over its live [Request] objects
    [x0, x1, ...], such as the elements of a [std::vector<Request>]. A newly
    constructed object comes last; a destroyed one is taken out. *)
Inductive statement :=
| Construct                                   (* Request x; *)
| ConstructNative (r : request)               (* Request x (r); *)
| ConstructCopy (j : nat)                     (* Request x (xj); *)
| Assign (i j : nat)                          (* xi = xj; *)
| AssignNative (i : nat) (r : request)        (* xi = r; *)
| Destroy (i : nat)                           (* xi goes out of scope *)
| Wait (i : nat)                              (* xi.wait (); *)
| Test (i : nat)                              (* xi.test (); *)
| TestStatus (i : nat)                        (* xi.test (stat); *)
| AddPriorRequest (i j : nat)                 (* xi.add_prior_request (xj); *)
| AddPostWaitWork (i : nat) (work : option PostWaitWork).
                                              (* xi.add_post_wait_work (work); *)

(** [on i xs f]: the member function [f] called on the object [xi]. A
    statement that names no live object is no statement of a program: it is
    skipped. *)
Definition on (i : nat) (xs : list Request) (f : Request → M Request) :
    M (list Request) :=
  match xs !! i with
  | Some this => this' ← f this; mret (<[i := this']> xs)
  | None => mret xs
  end.

Definition exec (c : statement) (xs : list Request) : M (list Request) :=
  match c with
  | Construct => mret (xs ++ [Request_default])
  | ConstructNative r => mret (xs ++ [Request_native r])
  | ConstructCopy j =>
      match xs !! j with
      | Some other => x ← Request_copy other; mret (xs ++ [x])
      | None => mret xs
      end
  | Assign i j =>
      match xs !! j with
      | Some other =>
          on i xs (λ this,
            Request_assign build this (if decide (i = j) then Self else Other other))
      | None => mret xs
      end
  | AssignNative i r => on i xs (λ this, Request_assign_native build this r)
  | Destroy i =>
      match xs !! i with
      | Some this => Request_destroy build this;; mret (delete i xs)
      | None => mret xs
      end
  | Wait i => on i xs (λ this, '(_, this') ← Request_wait build this; mret this')
  | Test i => on i xs (λ this, '(_, this') ← Request_test build this; mret this')
  | TestStatus i =>
      on i xs (λ this, '(_, _, this') ← Request_test_status this; mret this')
  | AddPriorRequest i j =>
      match xs !! j with
      | Some req => on i xs (λ this, add_prior_request build this req)
      | None => mret xs
      end
  | AddPostWaitWork i work => on i xs (λ this, add_post_wait_work this work)
  end.

(** The number of handles, links of chains included, that share the list
    [l] in a program state. *)
Definition sharers (xs : list Request) (l : loc) : nat :=
  count l (concat (work_lists <$> xs)).

Lemma sharers_app xs ys l :
  sharers (xs ++ ys) l = (sharers xs l + sharers ys l)%nat.
Proof. unfold sharers. by rewrite fmap_app, concat_app, count_app. Qed.

Lemma sharers_cons x xs l :
  sharers (x :: xs) l = (count l (work_lists x) + sharers xs l)%nat.
Proof. unfold sharers. simpl. by rewrite count_app. Qed.

Lemma sharers_lookup xs i x l :
  xs !! i = Some x →
  sharers xs l = (count l (work_lists x) + sharers (delete i xs) l)%nat.
Proof.
  intros Hi. rewrite <- (take_drop_middle xs i x Hi) at 1.
  rewrite delete_take_drop, !sharers_app, sharers_cons. lia.
Qed.

Lemma sharers_insert xs i x x' l :
  xs !! i = Some x →
  sharers (<[i := x']> xs) l =
    (count l (work_lists x') + sharers (delete i xs) l)%nat.
Proof.
  intros Hi. rewrite insert_take_drop by (by eapply lookup_lt_Some).
  rewrite delete_take_drop, !sharers_app, sharers_cons. lia.
Qed.

Lemma sharers_elem x ys l : x ∈ ys → (count l (work_lists x) ≤ sharers ys l)%nat.
Proof.
  induction 1 as [x ys|x y ys _ IH]; rewrite sharers_cons; lia.
Qed.

Lemma delete_elem_ne (xs : list Request) i j o :
  i ≠ j → xs !! j = Some o → o ∈ delete i xs.
Proof.
  intros Hne Hj. apply list_elem_of_lookup.
  destruct (decide (j < i)%nat).
  - exists j. by rewrite list_lookup_delete_lt.
  - exists (pred j). rewrite list_lookup_delete_ge by lia.
    by replace (S (pred j)) with j by lia.
Qed.

(** On one object, a member function that keeps the count keeps it in the
    program. *)
Lemma on_safe i xs f s :
  counted (heap s) (sharers xs) →
  (∀ this n0,
     xs !! i = Some this →
     (∀ l, sharers xs l = (count l (work_lists this) + n0 l)%nat) →
     counted (heap s) (λ l, (count l (work_lists this) + n0 l)%nat) →
     safe (f this) s
       (λ s1 this', counted (heap s1) (λ l, (count l (work_lists this') + n0 l)%nat))) →
  safe (on i xs f) s (λ s' xs', counted (heap s') (sharers xs')).
Proof.
  intros Hc Hf. unfold on. destruct (xs !! i) as [this|] eqn:Hi.
  - eapply safe_bind.
    + apply (Hf this (sharers (delete i xs)) eq_refl).
      * intros l. by apply sharers_lookup.
      * eapply counted_ext; [|exact Hc]. intros l. by apply sharers_lookup.
    + intros s1 this' _ Hc1. apply safe_ret.
      eapply counted_ext; [|exact Hc1]. intros l.
      by rewrite (sharers_insert xs i this this' l Hi).
  - by apply safe_ret.
Qed.

Lemma count_nil l : count l [] = 0%nat.
Proof. done. Qed.

Lemma sharers_single x l : sharers [x] l = count l (work_lists x).
Proof. unfold sharers. simpl. by rewrite app_nil_r. Qed.

Lemma work_lists_same this this' :
  _prior_request this' = _prior_request this →
  post_wait_work this' = post_wait_work this →
  work_lists this' = work_lists this.
Proof. intros Hp Hw. by rewrite !work_lists_chain, Hp, Hw. Qed.

Lemma test_err this s s' e :
  Request_test build this s = (s', Err e) → ¬ dangling e.
Proof.
  unfold Request_test. munfold.
  destruct (MPI_Test (world s) (_request this)) as [[[[w r] val] st] code].
  simpl. destruct (decide (code = MPI_SUCCESS)); [|by intros [= _ <-]].
  destruct (decide (val = 0)); [done|].
  destruct (strict build); [|done].
  destruct (bool_decide (r = MPI_REQUEST_NULL)); [|by intros [= _ <-]].
  destruct (bool_decide (val = 1)); [done|by intros [= _ <-]].
Qed.

Lemma test_status_err this s s' e :
  Request_test_status this s = (s', Err e) → ¬ dangling e.
Proof.
  unfold Request_test_status. munfold.
  destruct (MPI_Test (world s) (_request this)) as [[[[w r] val] st] code].
  simpl. destruct (decide (code = MPI_SUCCESS)); [done|by intros [= _ <-]].
Qed.

(** Every statement keeps the counts exact, and none goes through a deleted
    list. *)
Lemma exec_safe c xs s :
  counted (heap s) (sharers xs) →
  (∀ l, 2 * Z.of_nat (sharers xs l) < UINT_MODULUS) →
  safe (exec c xs) s (λ s' xs', counted (heap s') (sharers xs')).
Proof.
  intros Hc Hb. destruct c as [|r|j|i j|i r|i|i|i|i|i j|i work]; simpl.
  - apply safe_ret. eapply counted_ext; [|exact Hc]. intros l.
    rewrite sharers_app, sharers_single. simpl. rewrite count_nil. lia.
  - apply safe_ret. eapply counted_ext; [|exact Hc]. intros l.
    rewrite sharers_app, sharers_single. simpl. rewrite count_nil. lia.
  - destruct (xs !! j) as [other|] eqn:Hj; [|by apply safe_ret].
    assert (∀ l, (count l (work_lists other) ≤ sharers xs l)%nat) as Hle.
    { intros l. apply sharers_elem, list_elem_of_lookup. eauto. }
    eapply safe_bind.
    { apply (Request_copy_safe _ _ _ Hc Hle).
      intros l. specialize (Hle l). specialize (Hb l). lia. }
    intros s1 x _ [-> Hc1]. apply safe_ret.
    eapply counted_ext; [|exact Hc1]. intros l. simpl.
    rewrite sharers_app, sharers_single. lia.
  - destruct (xs !! j) as [other|] eqn:Hj; [|by apply safe_ret].
    apply on_safe; [done|]. intros this n0 Hi Hn Hc0.
    apply Request_assign_safe; [done| |].
    + intros l. rewrite <- Hn. apply Hb.
    + destruct (decide (i = j)) as [|Hne]; [done|]. intros l.
      pose proof (sharers_elem other (delete i xs) l
                    (delete_elem_ne xs i j other Hne Hj)) as Hle.
      pose proof (sharers_lookup xs i this l Hi) as Hl. specialize (Hn l). lia.
  - apply on_safe; [done|]. intros this n0 Hi Hn Hc0.
    apply Request_assign_native_safe; [done|].
    intros l. specialize (Hb l). rewrite <- Hn. lia.
  - destruct (xs !! i) as [this|] eqn:Hi; [|by apply safe_ret].
    eapply safe_bind.
    { apply (Request_destroy_safe build this s (sharers (delete i xs))).
      - eapply counted_ext; [|exact Hc]. intros l. by apply sharers_lookup.
      - intros l. specialize (Hb l).
        rewrite <- (sharers_lookup xs i this l Hi). lia. }
    intros s1 [] _ Hc1. by apply safe_ret.
  - apply on_safe; [done|]. intros this n0 Hi Hn Hc0.
    eapply safe_bind.
    { apply (Request_wait_safe build this s _ Hc0). intros l. lia. }
    intros s1 [st this'] _ [Hc1 Hlists]. apply safe_ret.
    simpl in Hlists. by rewrite Hlists.
  - apply on_safe; [done|]. intros this n0 Hi Hn Hc0. unfold safe.
    destruct (Request_test build this s) as [s1 [[b this']|e]] eqn:Ht.
    + rewrite (bind_ok _ _ _ _ _ Ht). simpl.
      apply test_ok_inv in Ht as (-> & Hp & Hw).
      by rewrite (work_lists_same _ _ Hp Hw).
    + rewrite (bind_err _ _ _ _ _ Ht). by eapply test_err.
  - apply on_safe; [done|]. intros this n0 Hi Hn Hc0. unfold safe.
    destruct (Request_test_status this s) as [s1 [[[b st] this']|e]] eqn:Ht.
    + rewrite (bind_ok _ _ _ _ _ Ht). simpl.
      apply test_status_ok_inv in Ht as (-> & Hp & Hw).
      by rewrite (work_lists_same _ _ Hp Hw).
    + rewrite (bind_err _ _ _ _ _ Ht). by eapply test_status_err.
  - destruct (xs !! j) as [req|] eqn:Hj; [|by apply safe_ret].
    apply on_safe; [done|]. intros this n0 Hi Hn Hc0.
    apply add_prior_request_safe; [done| |].
    + intros l. rewrite <- Hn. apply sharers_elem, list_elem_of_lookup. eauto.
    + intros l. rewrite <- Hn. apply Hb.
  - apply on_safe; [done|]. intros this n0 Hi Hn Hc0.
    by apply add_post_wait_work_safe.
Qed.

(** C4. In every state of a program the count of a work list is the number
    of handles that share it, and the list is allocated exactly as long as
    that number is not zero: every statement (construction, copy,
    assignment, destruction, wait, test, chaining, queuing) keeps this, as
    long as the counter cannot overflow, and no statement goes through a
    list that was deleted. [cleanup] decrements the count and deletes the
    list exactly when the count reaches zero; only a build with both [DEBUG]
    and assertions checks at that moment that no item is left that has not
    run, and fails if one is. *)
Theorem refcount_counts_handles (c : statement) (xs : list Request) (s : State) :
  counted (heap s) (sharers xs) →
  (∀ l, 2 * Z.of_nat (sharers xs l) < UINT_MODULUS) →
  (∀ s' xs', exec c xs s = (s', Ok xs') → counted (heap s') (sharers xs')) ∧
  (∀ s' e, exec c xs s = (s', Err e) → e ≠ UndefinedBehaviour dangling_pointer) ∧
  (∀ this l wl,
     post_wait_work this = Some l → heap s !! l = Some wl →
     cleanup build this s =
       if decide (uint (second wl - 1) = 0) then
         if DEBUG build && strict build && negb (all_null (first wl))
         then (mkState (<[l := mkWorkList (first wl) 0]> (heap s)) (world s) (trace s),
               Err (InvariantViolation assert_work_done))
         else (mkState (delete l (heap s)) (world s) (trace s),
               Ok (mkRequest (_request this) (_prior_request this) None))
       else (mkState (<[l := mkWorkList (first wl) (uint (second wl - 1))]> (heap s))
                     (world s) (trace s),
             Ok this)).
Proof.
  intros Hc Hb. pose proof (exec_safe c xs s Hc Hb) as Hsafe.
  split; [|split].
  - intros s' xs' H. by apply (safe_ok _ _ _ _ _ Hsafe H).
  - intros s' e H. by apply (safe_err _ _ _ _ _ Hsafe H).
  - intros this l wl. apply cleanup_spec.
Qed.

(** The object that a statement calls a member function on. *)
Definition target (c : statement) : option nat :=
  match c with
  | Assign i _ | AssignNative i _ | Wait i | Test i | TestStatus i
  | AddPriorRequest i _ | AddPostWaitWork i _ => Some i
  | Construct | ConstructNative _ | ConstructCopy _ | Destroy _ => None
  end.

Lemma on_frame i xs f s s' xs' k :
  on i xs f s = (s', Ok xs') → k ≠ i → xs' !! k = xs !! k.
Proof.
  unfold on. destruct (xs !! i) as [this|]; [|by intros [= _ <-]].
  intros H Hne. apply bind_inv_ok in H as (s1 & this' & _ & H).
  injection H as _ <-. by apply list_lookup_insert_ne.
Qed.

Lemma exec_frame c xs s s' xs' i k :
  target c = Some i → exec c xs s = (s', Ok xs') → k ≠ i → xs' !! k = xs !! k.
Proof.
  destruct c; simpl; try done; intros [= ->];
    try (by apply on_frame);
    (destruct (xs !! _); [by apply on_frame | by intros [= _ <-]]).
Qed.

(** The count of a list after [k] more handles share it. *)
Definition retained_times (k : nat) (wl : WorkList) : WorkList :=
  mkWorkList (first wl) (Nat.iter k (λ c, uint (c + 1)) (second wl)).

Lemma retained_all_lookup ls h l :
  retained_all ls h !! l = retained_times (count l ls) <$> h !! l.
Proof.
  induction ls as [|l0 ls IH]; simpl.
  - by destruct (h !! l) as [[]|].
  - rewrite count_cons. destruct (decide (l0 = l)) as [->|Hne].
    + rewrite lookup_alter_eq, IH. by destruct (h !! l).
    + by rewrite lookup_alter_ne.
Qed.

(** C5. Copy construction succeeds on a handle whose pointers are valid. The
    copy is equal to the original link by link: it holds the same native
    request and the same work list pointer, and its chain is a duplicate of
    the chain of the original whose links point to the same work lists. Every
    list keeps its items and is counted once more for each link that points
    to it. The copy and the original are two objects: a member function
    called on one of them ([add_prior_request], assignment, ...) leaves the
    other as it was. *)
Theorem copy_shares_work_and_duplicates_chain
    (xs : list Request) (j : nat) (other : Request) (s : State) :
  xs !! j = Some other →
  (∀ l, l ∈ work_lists other → is_Some (heap s !! l)) →
  ∃ s1,
    exec (ConstructCopy j) xs s = (s1, Ok (xs ++ [other])) ∧
    world s1 = world s ∧ trace s1 = trace s ∧
    (∀ l, heap s1 !! l =
          retained_times (count l (work_lists other)) <$> heap s !! l) ∧
    (∀ c i k s2 xs2,
       target c = Some i → k ≠ i →
       exec c (xs ++ [other]) s1 = (s2, Ok xs2) →
       xs2 !! k = (xs ++ [other]) !! k).
Proof.
  intros Hj Hv. eexists. split; [|split; [|split; [|split]]].
  - simpl. rewrite Hj. by rewrite (bind_ok _ _ _ _ _ (Request_copy_ok other s Hv)).
  - done.
  - done.
  - intros l. simpl. apply retained_all_lookup.
  - intros c i k s2 xs2 Ht Hne H. by apply (exec_frame c _ _ _ _ i k Ht H).
Qed.

End Program.

(** ** Worked scenarios *)

(** Native handles that are already signaled, as in the scenarios of the
    specification: a wait or a test completes at once, resets the request to
    the null handle (0) and reports the request it completed as its status.
    The world counts the native calls. *)
Definition signaled : MPI := {|
  request := Z;
  MPI_REQUEST_NULL := 0;
  status := Z;
  MPI_World := nat;
  MPI_Wait := λ w r, (S w, 0, r, MPI_SUCCESS);
  MPI_Test := λ w r, (S w, 0, 1, r, MPI_SUCCESS);
|}.

Definition dbg : Build := mkBuild true true.     (* assertions and DEBUG *)
Definition opt : Build := mkBuild false false.   (* neither *)

Section Scenarios.
Local Existing Instance signaled.

(** R1 = Request(11) with work item 1, R2 = Request(22) with work item 2,
    after R2.add_prior_request(R1): the link of R2 shares the list of R1. *)
Definition R1 : Request := mkRequest 11 None (Some 1%positive).
Definition R2 : Request := mkRequest 22 (Some R1) (Some 2%positive).
Definition chained : State :=
  mkState (<[1%positive := mkWorkList [Some 1%positive] 2]>
             (<[2%positive := mkWorkList [Some 2%positive] 1]> ∅)) 0%nat [].

(** The two handles once waited on. *)
Definition R1_done : Request := mkRequest 0 None (Some 1%positive).
Definition R2_done : Request := mkRequest 0 (Some R1_done) (Some 2%positive).

Definition after_R1 : State := Eval vm_compute in (Request_wait dbg R1 chained).1.
Definition after_R2 : State := Eval vm_compute in (Request_wait dbg R2 chained).1.

Lemma wait_prior_then_own_then_work_witness :
  ∃ s2 res,
    Request_wait dbg R2 chained = (s2, Ok res) ∧
    Status_get res.1 = 22 ∧
    trace s2 = [EvWait 11; EvRun 1%positive; EvDelete 1%positive;
                EvWait 22; EvRun 2%positive; EvDelete 2%positive].
Proof.
  destruct (wait_prior_then_own_then_work dbg R2 chained after_R1
              (Some R1_done) 2%nat 0 22 [2%positive])
    as (s2 & Hwait & Htrace & _).
  - simpl. eexists _, _. split; [vm_compute; reflexivity | reflexivity].
  - reflexivity.
  - exists (mkWorkList [Some 2%positive] 1). split; reflexivity.
  - eexists s2, _. split; [exact Hwait|]. split; [reflexivity|]. exact Htrace.
Defined.

Lemma wait_again_runs_nothing_witness :
  heap (Request_wait dbg R2_done after_R2).1 = heap after_R2 ∧
  ∃ qs, trace (Request_wait dbg R2_done after_R2).1 =
        trace after_R2 ++ (EvWait <$> qs).
Proof.
  apply (wait_again_runs_nothing dbg R2 R2_done chained after_R2 _ (@mkStatus signaled 22)
           (Request_wait dbg R2_done after_R2).2).
  - vm_compute; reflexivity.
  - apply surjective_pairing.
Defined.

(** The second wait fails on the first item of the oldest link, which has
    run: on the assertion where it is checked, by a call through the null
    pointer where it is not. *)
Example wait_again_asserts :
  (Request_wait dbg R2_done after_R2).2 = Err (InvariantViolation assert_work_present).
Proof. vm_compute; reflexivity. Qed.

Example wait_again_unchecked :
  (Request_wait opt R2_done after_R2).2 = Err (UndefinedBehaviour null_dereference).
Proof. vm_compute; reflexivity. Qed.

(** A, B, C with one list of work each; C.add_prior_request(B), then
    C.add_prior_request(A). *)
Definition A : Request := mkRequest 1 None (Some 1%positive).
Definition B : Request := mkRequest 2 None (Some 2%positive).
Definition C : Request := mkRequest 3 None (Some 3%positive).
Definition abc : State :=
  mkState (<[1%positive := mkWorkList [Some 10%positive] 1]>
             (<[2%positive := mkWorkList [Some 20%positive; Some 21%positive] 1]>
                (<[3%positive := mkWorkList [Some 30%positive] 1]> ∅))) 0%nat [].

(** The lists of R1, R2 and C together. *)
Definition abc_chained : State :=
  mkState (<[1%positive := mkWorkList [Some 1%positive] 2]>
             (<[2%positive := mkWorkList [Some 2%positive] 1]>
                (<[3%positive := mkWorkList [Some 30%positive] 1]> ∅))) 0%nat [].
Definition abc_chained_after : State :=
  mkState (<[1%positive := mkWorkList [Some 1%positive] 2]>
             (<[2%positive := mkWorkList [Some 2%positive] 2]>
                (<[3%positive := mkWorkList [Some 30%positive] 1]> ∅))) 0%nat [].

Lemma wait_completes_in_attachment_order_witness :
  ∃ s1 this1 s2 st this2,
    add_prior_requests dbg C [B; A] abc = (s1, Ok this1) ∧
    trace s1 = [] ∧
    Request_wait dbg this1 s1 = (s2, Ok (st, this2)) ∧
    trace s2 = [EvWait 2; EvRun 20%positive; EvDelete 20%positive;
                          EvRun 21%positive; EvDelete 21%positive;
                EvWait 1; EvRun 10%positive; EvDelete 10%positive;
                EvWait 3; EvRun 30%positive; EvDelete 30%positive].
Proof.
  apply (wait_completes_in_attachment_order dbg C [B; A] abc).
  - intros w q. reflexivity.
  - repeat constructor.
  - compute_done.
  - repeat constructor; simpl; eexists; (split; [reflexivity|]);
      repeat constructor; eexists; reflexivity.
Defined.

(** One handle with queued work, then a copy of it. *)
Definition X : Request := mkRequest 11 None (Some 1%positive).
Definition one : State :=
  mkState (<[1%positive := mkWorkList [Some 5%positive] 1]> ∅) 0%nat [].
Definition two : State :=
  mkState (<[1%positive := mkWorkList [Some 5%positive] 2]> ∅) 0%nat [].

Lemma counted_one : counted (heap one) (sharers [X]).
Proof.
  intros l. rewrite sharers_single. simpl.
  destruct (decide (1%positive = l)) as [<-|Hne].
  - rewrite lookup_insert_eq. by vm_compute.
  - rewrite lookup_insert_ne, lookup_empty by done.
    by rewrite count_cons, decide_False.
Qed.

Lemma bounded_one l : 2 * Z.of_nat (sharers [X] l) < UINT_MODULUS.
Proof.
  rewrite sharers_single. simpl. rewrite count_cons, count_nil.
  destruct (decide _); by vm_compute.
Qed.

Lemma refcount_counts_handles_witness : counted (heap two) (sharers [X; X]).
Proof.
  apply (proj1 (refcount_counts_handles dbg (ConstructCopy 0) [X] one
                  counted_one bounded_one) two [X; X]).
  vm_compute; reflexivity.
Defined.

Lemma copy_shares_work_and_duplicates_chain_witness :
  ∃ s1,
    exec dbg (ConstructCopy 0) [R2] chained = (s1, Ok [R2; R2]) ∧
    heap s1 !! 1%positive = Some (mkWorkList [Some 1%positive] 3) ∧
    heap s1 !! 2%positive = Some (mkWorkList [Some 2%positive] 2).
Proof.
  destruct (copy_shares_work_and_duplicates_chain dbg [R2] 0 R2 chained)
    as (s1 & Hexec & _ & _ & Hheap & _).
  - reflexivity.
  - intros l Hl. apply list_elem_of_In in Hl. simpl in Hl.
    destruct Hl as [<-|[<-|[]]]; eexists; reflexivity.
  - exists s1. split; [exact Hexec|]. split; rewrite Hheap; reflexivity.
Defined.

(** C6 as stated fails where assertions are not checked: a request that
    owns a prior link is attached without failure, and its own chain is
    dropped from the copy. *)
Lemma add_prior_request_unchecked :
  is_Some (_prior_request R2) ∧
  add_prior_request opt C R2 abc_chained =
    (abc_chained_after,
     Ok (mkRequest 3 (Some (mkRequest 22 None (Some 2%positive))) (Some 3%positive))).
Proof. split; [by eexists | vm_compute; reflexivity]. Qed.

Lemma add_prior_request_checked_witness :
  add_prior_request dbg C R2 abc_chained =
    (abc_chained, Err (InvariantViolation assert_no_prior)) ∧
  add_prior_request dbg C B abc =
    (mkState (retained (Some 2%positive) (heap abc)) 0%nat [],
     Ok (mkRequest 3 (Some (mkRequest 2 None (Some 2%positive))) (Some 3%positive))).
Proof.
  split.
  - apply (add_prior_request_checked dbg C R2 abc_chained).
    + intros l [= <-]. eexists; reflexivity.
    + reflexivity.
    + by eexists.
  - apply (add_prior_request_checked dbg C B abc).
    + intros l [= <-]. eexists; reflexivity.
    + reflexivity.
Defined.

Lemma assign_native_keeps_prior_witness :
  Request_assign_native dbg R2_done 99 after_R2 =
    (mkState (released (Some 2%positive) (heap after_R2)) 2%nat (trace after_R2),
     Ok (mkRequest 99 (Some R1_done) None)) ∧
  released (Some 2%positive) (heap after_R2) !! 2%positive = None.
Proof.
  split; [|reflexivity].
  apply (assign_native_keeps_prior dbg R2_done 99 after_R2).
  eexists. split; [reflexivity|]. intros _ _ _. repeat constructor.
Defined.

Lemma test_true_request_null_witness :
  Request_test dbg R1 chained =
    (@mkState signaled (heap chained) 1%nat [@EvTest signaled 11],
     Ok (true, R1_done)) ∧
  ∀ s', Request_test dbg R1 chained ≠
        (s', Err (InvariantViolation assert_request_null)).
Proof.
  destruct (test_true_request_null dbg R1 chained) as (_ & Hnever & Htrue).
  - intros w q w' q' flag st code [= _ <- _ _ _] _. reflexivity.
  - split; [|exact Hnever]. apply (Htrue 1%nat 0 11). reflexivity.
Defined.

Lemma assign_without_prior_keeps_chain_witness :
  Request_assign dbg R2_done (Other X) after_R2 =
    (mkState (retained (Some 1%positive)
                (released (Some 2%positive) (heap after_R2)))
             2%nat (trace after_R2),
     Ok (mkRequest 11 (Some R1_done) (Some 1%positive))).
Proof.
  apply (proj2 (assign_without_prior_keeps_chain dbg R2_done (Other X) after_R2
                  eq_refl) X).
  - reflexivity.
  - eexists. split; [reflexivity|]. intros _ _ _. repeat constructor.
  - intros l [= <-]. eexists; reflexivity.
Defined.

(** Assigning a handle to itself while it is the only one to share its list
    lets go of the list first: the list is deleted with its work, and the
    handle is left without a list. With [DEBUG] and assertions the check of
    the items fails instead. *)
Example self_assignment_deletes_list :
  exec opt (Assign 0 0) [X] one = (mkState ∅ 0%nat [], Ok [mkRequest 11 None None]).
Proof. vm_compute; reflexivity. Qed.

Example self_assignment_checked :
  (exec dbg (Assign 0 0) [X] one).2 = Err (InvariantViolation assert_work_done).
Proof. vm_compute; reflexivity. Qed.

(** An already signaled handle with queued work: [test] returns true and
    runs nothing, the following [wait] runs the items in their order. *)
Example test_then_wait :
  (Request_test dbg (mkRequest 2 None (Some 2%positive)) abc).2 =
    Ok (true, mkRequest 0 None (Some 2%positive)) ∧
  trace (Request_test dbg (mkRequest 2 None (Some 2%positive)) abc).1 = [EvTest 2] ∧
  trace (Request_wait dbg (mkRequest 0 None (Some 2%positive))
           (Request_test dbg (mkRequest 2 None (Some 2%positive)) abc).1).1 =
    [EvTest 2; EvWait 0; EvRun 20%positive; EvDelete 20%positive;
     EvRun 21%positive; EvDelete 21%positive].
Proof. repeat split; vm_compute; reflexivity. Qed.

End Scenarios.

(** * Further properties of the class *)

(** ** Queuing work *)

Section Queuing.
Context {mpi : MPI} (build : Build).

(** A sequence of [add_post_wait_work] calls on one handle. *)
Fixpoint add_post_wait_works (this : Request) (works : list (option PostWaitWork)) :
    M Request :=
  match works with
  | [] => mret this
  | work :: works =>
      this ← add_post_wait_work this work;
      add_post_wait_works this works
  end.

Lemma add_post_wait_work_present this work s l wl :
  post_wait_work this = Some l → heap s !! l = Some wl →
  add_post_wait_work this work s =
    (mkState (<[l := mkWorkList (first wl ++ [work]) (second wl)]> (heap s))
             (world s) (trace s),
     Ok this).
Proof.
  intros Hp Hl. unfold add_post_wait_work. rewrite Hp. munfold. simpl.
  rewrite Hl. simpl. by destruct this; simpl in *; subst.
Qed.

Lemma add_post_wait_work_absent this work s :
  post_wait_work this = None →
  add_post_wait_work this work s =
    (mkState (<[fresh (dom (heap s)) := mkWorkList [work] 1]> (heap s))
             (world s) (trace s),
     Ok (mkRequest (_request this) (_prior_request this)
                   (Some (fresh (dom (heap s)))))).
Proof.
  intros Hp. unfold add_post_wait_work. rewrite Hp. munfold. simpl.
  rewrite lookup_insert_eq. simpl. by rewrite insert_insert_eq.
Qed.

Lemma add_post_wait_works_present works : ∀ this s l wl,
  post_wait_work this = Some l → heap s !! l = Some wl →
  add_post_wait_works this works s =
    (mkState (<[l := mkWorkList (first wl ++ works) (second wl)]> (heap s))
             (world s) (trace s),
     Ok this).
Proof.
  induction works as [|work works IH]; intros this s l wl Hp Hl; simpl.
  - rewrite app_nil_r. destruct wl as [items c]. simpl.
    rewrite insert_id by done. by destruct s.
  - rewrite (bind_ok _ _ _ _ _ (add_post_wait_work_present this work s l wl Hp Hl)).
    rewrite (IH this _ l (mkWorkList (first wl ++ [work]) (second wl)) Hp)
      by (simpl; apply lookup_insert_eq).
    simpl. by rewrite insert_insert_eq, <- app_assoc.
Qed.

(** X1. Work queued on a handle runs in the order it was queued, after the
    work that was queued before: whether the list was there or is allocated
    by the first call, a [wait] that follows the calls completes the native
    request and then runs the former items and the new ones in that
    order. *)
Theorem queued_work_runs_in_order
    (this : Request) (ws : list PostWaitWork) (s : State)
    (w' : MPI_World) (r' : request) (st : status) :
  _prior_request this = None →
  pending (heap s) (post_wait_work this) →
  MPI_Wait (world s) (_request this) = (w', r', st, MPI_SUCCESS) →
  ∃ s1 this1 s2,
    add_post_wait_works this (Some <$> ws) s = (s1, Ok this1) ∧
    Request_wait build this1 s1 =
      (s2, Ok (mkStatus st, mkRequest r' None (post_wait_work this1))) ∧
    trace s2 =
      trace s ++ [EvWait (_request this)] ++
      work_events (queue (heap s) (post_wait_work this) ++ ws).
Proof.
  intros Hnp Hpend Hwait. destruct this as [r prior p]. simpl in *. subst prior.
  destruct p as [l|]; simpl in *.
  - destruct Hpend as (wl & Hl & Hall). rewrite Hl.
    eexists _, _, _. split; [by apply (add_post_wait_works_present _ _ _ l wl)|].
    split.
    + eapply (Request_wait_ok build (mkRequest r None (Some l)) _ _ None w' r' st
                (omap id (first wl) ++ ws)); simpl; [done|done|].
      eexists. cbn [heap]. rewrite lookup_insert_eq. split; [done|]. simpl.
      by rewrite fmap_app, <- all_Some_omap.
    + reflexivity.
  - destruct ws as [|w ws]; simpl.
    + eexists _, _, _. split; [done|]. split.
      * by apply (Request_wait_ok build (mkRequest r None None) s s None w' r' st []).
      * reflexivity.
    + rewrite (bind_ok _ _ _ _ _
                 (add_post_wait_work_absent (mkRequest r None None) (Some w) s eq_refl)).
      simpl. eexists _, _, _. split.
      { apply (add_post_wait_works_present _ _ _ (fresh (dom (heap s)))
                 (mkWorkList [Some w] 1)); [done|]. simpl. apply lookup_insert_eq. }
      split.
      * eapply (Request_wait_ok build
                  (mkRequest r None (Some (fresh (dom (heap s))))) _ _ None w' r' st
                  (w :: ws)); simpl; [done|done|].
        eexists. cbn [heap]. rewrite lookup_insert_eq. split; [done|]. done.
      * reflexivity.
Qed.

(** X2. A copy shares the work list of the original only if the original had
    one when it was copied. Work queued through the copy then goes to the
    list of the original. A copy of a handle without a list gets a list of
    its own at its first [add_post_wait_work]: a new list, counted once,
    that the original and its chain do not point to. *)
Theorem copy_shares_list_only_if_present
    (other : Request) (work : option PostWaitWork) (s : State) :
  (∀ l, l ∈ work_lists other → is_Some (heap s !! l)) →
  ∃ s1 s2 copy,
    Request_copy other s = (s1, Ok other) ∧
    add_post_wait_work other work s1 = (s2, Ok copy) ∧
    match post_wait_work other with
    | Some l =>
        copy = other ∧
        first <$> (heap s2 !! l) = (λ wl, first wl ++ [work]) <$> (heap s !! l)
    | None =>
        ∃ l, post_wait_work copy = Some l ∧
             heap s !! l = None ∧ (l ∉ work_lists other) ∧
             heap s2 !! l = Some (mkWorkList [work] 1)
    end.
Proof.
  intros Hv. pose proof (Request_copy_ok other s Hv) as Hcopy.
  destruct (post_wait_work other) as [l|] eqn:Hp.
  - assert (l ∈ work_lists other) as Hin.
    { rewrite work_lists_chain, Hp. simpl. left. }
    destruct (Hv l Hin) as [wl Hl].
    assert (retained_all (work_lists other) (heap s) !! l =
            Some (retained_times (count l (work_lists other)) wl)) as Hl1.
    { by rewrite retained_all_lookup, Hl. }
    eexists _, _, _. split; [exact Hcopy|].
    split; [eapply add_post_wait_work_present; [exact Hp | exact Hl1]|].
    split; [done|]. simpl. by rewrite lookup_insert_eq, Hl.
  - eexists _, _, _. split; [exact Hcopy|].
    split; [by apply add_post_wait_work_absent|]. simpl.
    set (l := fresh (dom (retained_all (work_lists other) (heap s)))).
    assert (retained_all (work_lists other) (heap s) !! l = None) as Hfresh.
    { apply not_elem_of_dom, is_fresh. }
    assert (heap s !! l = None) as Hnone.
    { rewrite retained_all_lookup in Hfresh. by destruct (heap s !! l). }
    exists l. repeat split; [done| |by rewrite lookup_insert_eq].
    intros [wl Hl]%Hv. congruence.
Qed.

End Queuing.

(** ** Temporary copies *)

Section RoundTrip.
Context {mpi : MPI} (build : Build).

(** The lists [ls] are alive in [h], and their counts have room for one
    more handle per occurrence in [ls]. *)
Definition in_range (h : gmap loc WorkList) (ls : list loc) : Prop :=
  ∀ l, l ∈ ls →
       ∃ wl, h !! l = Some wl ∧ 0 < second wl ∧
             second wl + Z.of_nat (count l ls) < UINT_MODULUS.

Lemma iter_retain k c :
  0 ≤ c → c + Z.of_nat k < UINT_MODULUS →
  Nat.iter k (λ c, uint (c + 1)) c = c + Z.of_nat k.
Proof.
  intros Hc. induction k as [|k IH]; intros Hb; simpl.
  - lia.
  - rewrite IH by lia. rewrite uint_small by lia. lia.
Qed.

Lemma in_range_tail h l ls : in_range h (l :: ls) → in_range h ls.
Proof.
  intros Hr l' Hl'. destruct (Hr l') as (wl & Hwl & Hpos & Hb); [by right|].
  exists wl. repeat split; try done. rewrite count_cons in Hb. lia.
Qed.

Lemma retained_times_retain k wl :
  retained_times k (retain wl) = retain (retained_times k wl).
Proof.
  unfold retained_times, retain. simpl. f_equal.
  induction k as [|k IH]; simpl; [done|]. by rewrite IH.
Qed.

Lemma retained_all_retained ls l h :
  retained_all ls (alter retain l h) = alter retain l (retained_all ls h).
Proof.
  apply map_eq. intros l'. rewrite retained_all_lookup.
  destruct (decide (l = l')) as [<-|Hne].
  - rewrite !lookup_alter_eq, retained_all_lookup.
    destruct (h !! l) as [wl|]; simpl; [|done]. by rewrite retained_times_retain.
  - by rewrite !lookup_alter_ne, retained_all_lookup.
Qed.

(** Destroying a chain whose lists were retained once per link - as its copy
    constructor does - gives the counts back and deletes nothing. *)
Lemma Request_destroy_retained this : ∀ s h0,
  heap s = retained_all (work_lists this) h0 →
  in_range h0 (work_lists this) →
  Request_destroy build this s = (mkState h0 (world s) (trace s), Ok tt).
Proof.
  assert (∀ r prior w s h0,
            heap s = retained_all (work_lists (mkRequest r prior w)) h0 →
            in_range h0 (work_lists (mkRequest r prior w)) →
            ∃ this',
              cleanup build (mkRequest r prior w) s =
                (mkState (retained_all (chain_lists prior) h0) (world s) (trace s),
                 Ok this') ∧
              in_range h0 (chain_lists prior)) as Hstep.
  { intros r prior w s h0 Hs Hr. rewrite work_lists_chain in *.
    cbn [_request _prior_request post_wait_work] in *.
    destruct w as [l|]; cbn [own app] in *.
    - destruct (Hr l) as (wl & Hwl & Hpos & Hb); [left|].
      rewrite count_cons, decide_True in Hb by done.
      assert (heap s !! l =
              Some (mkWorkList (first wl)
                      (second wl + Z.of_nat (count l (chain_lists prior)) + 1))) as Hl.
      { rewrite Hs. simpl. rewrite lookup_alter_eq, retained_all_lookup, Hwl.
        simpl. unfold retain, retained_times. simpl.
        rewrite iter_retain by lia. by rewrite uint_small by lia. }
      exists (mkRequest r prior (Some l)). split; [|by eapply in_range_tail].
      rewrite (cleanup_spec build (mkRequest r prior (Some l)) s l _ eq_refl Hl).
      simpl.
      replace (second wl + Z.of_nat (count l (chain_lists prior)) + 1 - 1)
        with (second wl + Z.of_nat (count l (chain_lists prior))) by lia.
      rewrite uint_small by lia. rewrite decide_False by lia.
      f_equal. f_equal. apply map_eq. intros l'.
      destruct (decide (l = l')) as [<-|Hne].
      + rewrite lookup_insert_eq, retained_all_lookup, Hwl. simpl.
        unfold retained_times. by rewrite iter_retain by lia.
      + rewrite lookup_insert_ne by done. rewrite Hs. simpl.
        by rewrite lookup_alter_ne.
    - exists (mkRequest r prior None). split; [|done].
      unfold cleanup. simpl. munfold. rewrite <- Hs. by destruct s. }
  induction this as [r w|r p w IH] using Request_ind; intros s h0 Hs Hr;
    rewrite Request_destroy_eq;
    destruct (Hstep _ _ _ s h0 Hs Hr) as (this' & Hcl & Hr');
    rewrite (bind_ok _ _ _ _ _ Hcl); simpl.
  - done.
  - by rewrite (IH (mkState (retained_all (work_lists p) h0) (world s) (trace s))
                  h0 eq_refl Hr').
Qed.

(** X3. A temporary copy is harmless. Copy construction followed by the
    destruction of the copy leaves the state exactly as it was - the
    counts, the lists, the trace - when the lists of the chain are alive and
    their counters do not overflow. *)
Theorem copy_then_destroy_restores (other : Request) (s : State) :
  in_range (heap s) (work_lists other) →
  ∃ s1, Request_copy other s = (s1, Ok other) ∧
        Request_destroy build other s1 = (s, Ok tt).
Proof.
  intros Hr. eexists. split.
  - apply Request_copy_ok. intros l Hl. destruct (Hr l Hl) as (wl & -> & _). done.
  - rewrite (Request_destroy_retained other
               (mkState (retained_all (work_lists other) (heap s)) (world s) (trace s))
               (heap s) eq_refl Hr).
    simpl. by rewrite state_eta.
Qed.

(** X4. Where assertions are not checked, or for a request without a prior
    link, [add_prior_request] succeeds whatever chain the request owns: the
    new link has the native request and the work list of the request, and
    the former chain of the handle as its prior. The chain of the request
    is not attached: its duplicate is destroyed at once, which leaves the
    counts of its lists as they were. Only the list of the request itself
    is counted once more. *)
Theorem add_prior_request_drops_chain (this req : Request) (s : State) :
  strict build = false ∨ _prior_request req = None →
  in_range (heap s) (work_lists req) →
  add_prior_request build this req s =
    (mkState (retained (post_wait_work req) (heap s)) (world s) (trace s),
     Ok (mkRequest (_request this)
           (Some (mkRequest (_request req) (_prior_request this)
                            (post_wait_work req)))
           (post_wait_work this))).
Proof.
  intros Hbuild Hr. unfold add_prior_request.
  rewrite (bind_ok _ _ s s tt); cycle 1.
  { munfold. destruct Hbuild as [->| ->]; [done|]. by destruct (strict build). }
  erewrite bind_ok; cycle 1.
  { apply Request_copy_ok. intros l Hl. destruct (Hr l Hl) as (wl & -> & _). done. }
  assert (delete_prior build (_prior_request req)
            (mkState (retained_all (work_lists req) (heap s)) (world s) (trace s)) =
          (mkState (retained (post_wait_work req) (heap s)) (world s) (trace s),
           Ok tt)) as Hdel.
  { destruct req as [r [p|] w]; simpl.
    - apply (Request_destroy_retained p
               (mkState (retained_all (work_lists (mkRequest r (Some p) w)) (heap s))
                        (world s) (trace s))
               (retained w (heap s))).
      + simpl. destruct w as [l|]; simpl; [|done]. by rewrite retained_all_retained.
      + intros l Hl.
        destruct (Hr l) as (wl & Hwl & Hpos & Hb).
        { rewrite work_lists_chain. apply elem_of_app. by right. }
        rewrite work_lists_chain, count_app in Hb. simpl in Hb.
        rewrite count_own in Hb.
        destruct w as [l0|]; simpl.
        * destruct (decide (l0 = l)) as [->|Hne].
          -- rewrite lookup_alter_eq, Hwl. simpl. eexists. split; [done|]. simpl.
             rewrite decide_True in Hb by done. rewrite uint_small by lia. lia.
          -- rewrite lookup_alter_ne by done. exists wl.
             rewrite decide_False in Hb by congruence. repeat split; try done; lia.
        * exists wl. repeat split; try done; lia.
    - rewrite app_nil_r. destruct w as [l|]; simpl; munfold; done. }
  erewrite bind_ok by exact Hdel. done.
Qed.

End RoundTrip.

(** ** Assignment *)

Section Assignment.
Context {mpi : MPI} (build : Build).

Lemma Request_assign_self this s :
  releasable build (post_wait_work this) (heap s) →
  in_range (released (post_wait_work this) (heap s))
           (chain_lists (_prior_request this)) →
  Request_assign build this Self s =
    (mkState (retained (cleaned (post_wait_work this) (heap s))
                (released (post_wait_work this) (heap s)))
             (world s) (trace s),
     Ok (mkRequest (_request this) (_prior_request this)
                   (cleaned (post_wait_work this) (heap s)))).
Proof.
  intros Hrel Hr. unfold Request_assign.
  rewrite (bind_ok _ _ _ _ _ (cleanup_ok build this s Hrel)).
  destruct this as [r prior p]. cbn [resolve _request _prior_request post_wait_work] in *.
  set (h1 := released p (heap s)) in *.
  assert (match prior with
          | Some q =>
              p' ← Request_copy q;
              delete_prior build prior;;
              mret (mkRequest r (Some p') (cleaned p (heap s)))
          | None => mret (mkRequest r prior (cleaned p (heap s)))
          end (mkState h1 (world s) (trace s)) =
          (mkState h1 (world s) (trace s),
           Ok (mkRequest r prior (cleaned p (heap s))))) as Hprior.
  { destruct prior as [q|]; [|done]. simpl in Hr.
    erewrite bind_ok; cycle 1.
    { apply Request_copy_ok. intros l Hl. simpl.
      destruct (Hr l Hl) as (wl & -> & _). done. }
    erewrite bind_ok; [done|]. simpl.
    by apply (Request_destroy_retained build q
                (mkState (retained_all (work_lists q) h1) (world s) (trace s)) h1). }
  destruct prior as [q|]; cbn [_prior_request] in *;
    (erewrite bind_ok by exact Hprior); cbn [post_wait_work];
    (erewrite bind_ok; [done|]);
    apply (acquire_ok _ (mkState h1 (world s) (trace s))); simpl;
    intros l Hl; subst h1; destruct p as [l0|]; simpl in *; try done;
    destruct Hrel as (wl & Hwl & _); rewrite Hwl in *;
    destruct (decide (uint (second wl - 1) = 0)); try done;
    injection Hl as ->; rewrite lookup_insert_eq; by eexists.
Qed.

(** X5. Assigning a handle to itself changes nothing - not the handle, not
    the counts, not the lists - when the handle has no work list or is not
    the only one to share it: the count is decremented and incremented
    again, and the chain is duplicated and the former chain destroyed. *)
Theorem self_assignment_shared (this : Request) (s : State) :
  match post_wait_work this with
  | Some l => ∃ wl, heap s !! l = Some wl ∧ 1 < second wl < UINT_MODULUS
  | None => True
  end →
  in_range (released (post_wait_work this) (heap s))
           (chain_lists (_prior_request this)) →
  Request_assign build this Self s = (s, Ok this).
Proof.
  intros Hshared Hr. rewrite Request_assign_self; [|..|done].
  - destruct this as [r prior [l|]], s as [h w t]; simpl in *; [|done].
    destruct Hshared as (wl & Hwl & Hlo & Hhi). rewrite Hwl.
    rewrite uint_small by lia. rewrite !decide_False by lia. simpl.
    f_equal. f_equal. apply map_eq. intros l'.
    destruct (decide (l = l')) as [<-|Hne].
    + rewrite lookup_alter_eq, lookup_insert_eq, Hwl. simpl. unfold retain. simpl.
      replace (second wl - 1 + 1) with (second wl) by lia.
      rewrite uint_small by lia. by destruct wl.
    + by rewrite lookup_alter_ne, lookup_insert_ne.
  - destruct (post_wait_work this) as [l|]; [|done].
    destruct Hshared as (wl & Hwl & Hlo & Hhi). exists wl. split; [done|].
    intros _ _. rewrite uint_small by lia. lia.
Qed.

(** X6. Assigning a handle to itself when it is the only one to share its
    work list deletes the list, with whatever work it holds, and leaves the
    handle without a list: [cleanup] lets go of the last share before the
    source, which is the handle itself, is read. A build with [DEBUG] and
    assertions accepts this only if every item has run. *)
Theorem self_assignment_sole_owner (this : Request) (s : State) (l : loc) (wl : WorkList) :
  post_wait_work this = Some l → heap s !! l = Some wl → second wl = 1 →
  (DEBUG build = true → strict build = true →
   Forall (λ item, item = None) (first wl)) →
  in_range (delete l (heap s)) (chain_lists (_prior_request this)) →
  Request_assign build this Self s =
    (mkState (delete l (heap s)) (world s) (trace s),
     Ok (mkRequest (_request this) (_prior_request this) None)).
Proof.
  intros Hp Hl Hone Hdone Hr. rewrite Request_assign_self.
  - rewrite Hp. simpl. rewrite Hl, Hone. done.
  - rewrite Hp. exists wl. split; [done|]. auto.
  - rewrite Hp. simpl. by rewrite Hl, Hone.
Qed.

Lemma Request_copy_inv other : ∀ s s' x,
  Request_copy other s = (s', Ok x) → x = other.
Proof.
  induction other as [r w|r p w IH] using Request_ind; intros s s' x;
    rewrite Request_copy_eq; simpl; intros H;
    apply bind_inv_ok in H as (s1 & prior & Hp & H);
    apply bind_inv_ok in H as (s2 & [] & _ & H); injection H as _ <-.
  - by injection Hp as _ <-.
  - apply bind_inv_ok in Hp as (s3 & p' & Hp & H). injection H as _ <-.
    by rewrite (IH _ _ _ Hp).
Qed.

(** X7. Whenever an assignment from another object returns, the target has
    the native request and the work list pointer of the source, and for its
    chain a duplicate of the chain of the source - unless the source has no
    chain, in which case the target keeps the chain it had. With a source
    that owns a chain the target is thus equal to the source. *)
Theorem assignment_result (this o this' : Request) (s s' : State) :
  Request_assign build this (Other o) s = (s', Ok this') →
  this' = mkRequest (_request o)
            (match _prior_request o with
             | Some q => Some q
             | None => _prior_request this
             end)
            (post_wait_work o) ∧
  (is_Some (_prior_request o) → this' = o).
Proof.
  intros H. unfold Request_assign in H.
  apply bind_inv_ok in H as (s1 & this1 & Hc & H).
  apply cleanup_keeps in Hc as [_ Hprior]. simpl in H.
  apply bind_inv_ok in H as (s2 & this2 & Hp & H).
  apply bind_inv_ok in H as (s3 & [] & _ & H). injection H as _ <-.
  assert (this2 = mkRequest (_request o)
                    (match _prior_request o with
                     | Some q => Some q
                     | None => _prior_request this
                     end)
                    (post_wait_work o)) as ->.
  { destruct (_prior_request o) as [q|].
    - apply bind_inv_ok in Hp as (s4 & q' & Hcopy & Hp).
      apply Request_copy_inv in Hcopy as ->.
      apply bind_inv_ok in Hp as (s5 & [] & _ & Hp). by injection Hp as _ <-.
    - injection Hp as _ <-. by rewrite Hprior. }
  split; [done|]. intros [q Hq]. rewrite Hq. by destruct o; simpl in *; subst.
Qed.

End Assignment.

(** ** Waiting: batches, null work, and what [wait] leaves alone *)

Section Waiting.
Context {mpi : MPI} (build : Build).

(** The links of all the handles of a batch, in the order of their
    completion. *)
Definition batch_order (rs : list Request) : list node :=
  concat (wait_order <$> rs).

Lemma lists_of_elem (ns : list node) n l : n ∈ ns → n.2 = Some l → l ∈ lists_of ns.
Proof.
  intros Hn Hl. unfold lists_of. apply list_elem_of_omap. by exists n.
Qed.

Lemma order_events_agree h h' ns :
  (∀ l, l ∈ lists_of ns → h' !! l = h !! l) →
  order_events h' ns = order_events h ns.
Proof.
  intros Hagree. unfold order_events. f_equal. apply list_fmap_ext.
  intros i n Hn. unfold node_events. f_equal. f_equal.
  destruct n as [q [l|]]; simpl; [|done].
  rewrite Hagree; [done|].
  eapply lists_of_elem; [by eapply list_elem_of_lookup_2|done].
Qed.

Lemma wait_all_in_order rs : ∀ s,
  (∀ w q, (MPI_Wait w q).2 = MPI_SUCCESS) →
  NoDup (lists_of (batch_order rs)) →
  Forall (λ n, pending (heap s) n.2) (batch_order rs) →
  ∃ s' rs',
    wait_all build rs s = (s', Ok rs') ∧
    length rs' = length rs ∧
    trace s' = trace s ++ order_events (heap s) (batch_order rs) ∧
    ∀ l, l ∉ lists_of (batch_order rs) → heap s' !! l = heap s !! l.
Proof.
  induction rs as [|r rs IH]; intros s Hmpi Hnd Hpend.
  - exists s, []. repeat split; try done. simpl. by rewrite app_nil_r.
  - unfold batch_order in *. rewrite fmap_cons in *. simpl in Hnd, Hpend.
    rewrite lists_of_app in Hnd. apply NoDup_app in Hnd as (Hnd1 & Hdisj & Hnd2).
    apply Forall_app in Hpend as [Hpend1 Hpend2].
    destruct (wait_in_order build r s Hmpi Hnd1 Hpend1)
      as (s1 & st & r' & Hwait & Ht1 & Hframe1).
    assert (∀ l, l ∈ lists_of (concat (wait_order <$> rs)) →
                 heap s1 !! l = heap s !! l) as Hagree.
    { intros l Hl. apply Hframe1. intros Hl1. by apply (Hdisj l Hl1). }
    destruct (IH s1 Hmpi Hnd2) as (s' & rs' & Hall & Hlen & Ht & Hframe).
    { apply Forall_forall. intros [q p] Hn.
      rewrite Forall_forall in Hpend2. specialize (Hpend2 _ Hn). simpl in *.
      destruct p as [l|]; simpl in *; [|done].
      rewrite Hagree; [done|]. by eapply lists_of_elem. }
    exists s', (r' :: rs'). simpl. repeat split.
    + rewrite (bind_ok _ _ _ _ _ Hwait). simpl.
      by rewrite (bind_ok _ _ _ _ _ Hall).
    + simpl. by rewrite Hlen.
    + rewrite Ht, Ht1, order_events_app, (order_events_agree _ _ _ Hagree).
      by rewrite app_assoc.
    + intros l Hl. rewrite lists_of_app in Hl.
      rewrite Hframe, Hframe1; [done| |]; intros Hin; apply Hl, elem_of_app; auto.
Qed.

(** X8. The batch wait over a vector of handles waits on each handle in the
    order of the vector: the links of the first handle complete in their
    order, each followed by its work, then those of the second, and so on;
    a handle comes back for every handle of the vector. The native waits
    are taken to succeed, and the links to have distinct lists of pending
    work. *)
Theorem wait_all_completes_in_vector_order (rs : list Request) (s : State) :
  (∀ w q, (MPI_Wait w q).2 = MPI_SUCCESS) →
  NoDup (lists_of (batch_order rs)) →
  Forall (λ n, pending (heap s) n.2) (batch_order rs) →
  ∃ s' rs',
    wait_all build rs s = (s', Ok rs') ∧
    length rs' = length rs ∧
    trace s' = trace s ++ order_events (heap s) (batch_order rs).
Proof.
  intros Hmpi Hnd Hpend.
  destruct (wait_all_in_order rs s Hmpi Hnd Hpend) as (s' & rs' & H1 & H2 & H3 & _).
  by exists s', rs'.
Qed.

(** How [wait] fails on a null work item. *)
Definition null_work_failure : error :=
  if strict build then InvariantViolation assert_work_present
  else UndefinedBehaviour null_dereference.

Lemma run_work_null l pre ws rest c h w t :
  h !! l = Some (mkWorkList (pre ++ (Some <$> ws) ++ None :: rest) c) →
  run_work build l (length pre) ((Some <$> ws) ++ None :: rest) (mkState h w t) =
    (mkState (<[l := mkWorkList (pre ++ replicate (length ws) None ++ None :: rest) c]> h)
             w (t ++ work_events ws),
     Err null_work_failure).
Proof.
  revert pre h t. induction ws as [|x ws IH]; intros pre h t Hl.
  - simpl in *. unfold null_work_failure. munfold. rewrite app_nil_r.
    rewrite insert_id by done. by destruct (strict build).
  - rewrite fmap_cons in *. cbn [app run_work]. munfold. cbn -[fmap].
    destruct (strict build) eqn:Hs; cbn -[fmap]; rewrite Hl; cbn -[fmap].
    all: replace (<[length pre:=None]> (pre ++ Some x :: (Some <$> ws) ++ None :: rest))
           with ((pre ++ [None]) ++ (Some <$> ws) ++ None :: rest)
           by (rewrite insert_app_r_alt, Nat.sub_diag by lia;
               simpl; by rewrite <- app_assoc).
    all: replace (S (length pre)) with (length (pre ++ [None]))
           by (rewrite length_app; simpl; lia).
    all: rewrite IH by (by rewrite lookup_insert_eq).
    all: rewrite insert_insert_eq, <- !app_assoc; simpl; done.
Qed.

(** X9. [add_post_wait_work] does not check its argument, and a null work
    item stops the [wait] that reaches it: the items queued before it are
    run and released, the null entry and the items queued after it are left
    in the list, and the wait fails - on the assertion where it is checked,
    by the call through the null pointer otherwise. The items behind a null
    entry are never run by this or a later [wait]. *)
Theorem wait_stops_at_null_work
    (this : Request) (s s1 : State) (prior' : option Request)
    (w' : MPI_World) (r' : request) (st : status)
    (l : loc) (wl : WorkList) (ws : list PostWaitWork)
    (rest : list (option PostWaitWork)) :
  match _prior_request this with
  | Some p => ∃ st_p p', Request_wait build p s = (s1, Ok (st_p, p')) ∧ prior' = Some p'
  | None => s1 = s ∧ prior' = None
  end →
  MPI_Wait (world s1) (_request this) = (w', r', st, MPI_SUCCESS) →
  post_wait_work this = Some l → heap s1 !! l = Some wl →
  first wl = (Some <$> ws) ++ None :: rest →
  Request_wait build this s =
    (mkState (<[l := mkWorkList (replicate (length ws) None ++ None :: rest)
                                (second wl)]> (heap s1))
             w' (trace s1 ++ [EvWait (_request this)] ++ work_events ws),
     Err null_work_failure).
Proof.
  intros Hprior Hwait Hp Hl Hitems. rewrite Request_wait_eq.
  assert (match _prior_request this with
          | Some p => '(_, p') ← Request_wait build p; mret (Some p')
          | None => mret None
          end s = (s1, Ok prior')) as Hpr.
  { destruct (_prior_request this) as [q|].
    - destruct Hprior as (st_p & p' & Hw & ->). by rewrite (bind_ok _ _ _ _ _ Hw).
    - by destruct Hprior as [-> ->]. }
  rewrite (bind_ok _ _ _ _ _ Hpr).
  assert (mpi_wait (_request this) s1 =
          (mkState (heap s1) w' (trace s1 ++ [EvWait (_request this)]),
           Ok (r', st, MPI_SUCCESS))) as Hm.
  { unfold mpi_wait. by rewrite Hwait. }
  rewrite (bind_ok _ _ _ _ _ Hm). simpl.
  erewrite bind_ok by done.
  erewrite bind_err; [done|]. rewrite Hp. unfold post_wait. munfold. cbn -[fmap].
  rewrite Hl. cbn -[fmap]. destruct wl as [items c]. simpl in Hitems. subst items.
  pose proof (run_work_null l [] ws rest c (heap s1) w'
                (trace s1 ++ [EvWait (_request this)]) Hl) as Hrun.
  cbn [length app] in Hrun. cbn [first second]. rewrite Hrun.
  by rewrite <- app_assoc.
Qed.

(** What [wait] keeps of a list: the size of its vector and its count. *)
(** [wl'] is [wl] with some entries set to null: the same count, the same
    number of entries, every entry as it was or null. *)
Definition nulled (wl wl' : WorkList) : Prop :=
  second wl' = second wl ∧
  Forall2 (λ item item', item' = item ∨ item' = None) (first wl) (first wl').

(** [h'] has the lists of [h], at the same places, with some entries set to
    null. *)
Definition only_nulled (h h' : gmap loc WorkList) : Prop :=
  ∀ l, option_Forall2 nulled (h !! l) (h' !! l).

Lemma nulled_refl wl : nulled wl wl.
Proof. split; [done|]. apply Forall_Forall2_diag, Forall_forall. by left. Qed.

Lemma nulled_trans wl1 wl2 wl3 : nulled wl1 wl2 → nulled wl2 wl3 → nulled wl1 wl3.
Proof.
  intros [Hc1 Hf1] [Hc2 Hf2]. split; [congruence|].
  revert Hf2. generalize (first wl3).
  induction Hf1 as [|x y xs ys Hxy _ IH]; intros zs Hz;
    inversion Hz as [|? z ? zs' Hyz Hrest]; subst; constructor; [|by apply IH].
  destruct Hxy as [->| ->], Hyz as [->| ->]; auto.
Qed.

Lemma nulled_insert wl i :
  nulled wl (mkWorkList (<[i := None]> (first wl)) (second wl)).
Proof.
  split; [done|]. simpl. generalize (first wl). intros items. revert i.
  induction items as [|item items IH]; intros [|i]; simpl; constructor; auto.
  - apply Forall_Forall2_diag, Forall_forall. by left.
Qed.

Lemma only_nulled_refl h : only_nulled h h.
Proof.
  intros l. destruct (h !! l); constructor. apply nulled_refl.
Qed.

Lemma only_nulled_trans h1 h2 h3 :
  only_nulled h1 h2 → only_nulled h2 h3 → only_nulled h1 h3.
Proof.
  intros H12 H23 l. specialize (H12 l). specialize (H23 l).
  destruct H12 as [wl1 wl2 H12|]; inversion H23 as [? wl3 H23'|]; subst;
    constructor. by eapply nulled_trans.
Qed.

Lemma only_nulled_insert h l wl :
  h !! l = Some wl →
  ∀ i, only_nulled h (<[l := mkWorkList (<[i := None]> (first wl)) (second wl)]> h).
Proof.
  intros Hl i l'. destruct (decide (l = l')) as [<-|Hne].
  - rewrite lookup_insert_eq, Hl. constructor. apply nulled_insert.
  - rewrite lookup_insert_ne by done. apply only_nulled_refl.
Qed.

Lemma run_work_nulled l items : ∀ i s s' (res : result unit),
  run_work build l i items s = (s', res) → only_nulled (heap s) (heap s').
Proof.
  induction items as [|[w|] items IH]; intros i s s' res; simpl.
  - intros [= <- _]. apply only_nulled_refl.
  - munfold. simpl. destruct (strict build); simpl;
      (destruct (heap s !! l) as [wl|] eqn:Hl; simpl;
       [ intros H; apply IH in H; simpl in H;
         eapply only_nulled_trans; [by apply only_nulled_insert|exact H]
       | intros [= <- _]; apply only_nulled_refl ]).
  - munfold. destruct (strict build); simpl; intros [= <- _];
      apply only_nulled_refl.
Qed.

Lemma post_wait_nulled p s s' (res : result unit) :
  post_wait build p s = (s', res) → only_nulled (heap s) (heap s').
Proof.
  destruct p as [l|]; simpl; [|intros [= <- _]; apply only_nulled_refl].
  munfold. simpl.
  destruct (heap s !! l);
    [apply run_work_nulled | intros [= <- _]; apply only_nulled_refl].
Qed.

Lemma wait_nulled this : ∀ s s' res,
  Request_wait build this s = (s', res) → only_nulled (heap s) (heap s').
Proof.
  assert (∀ r w prior' s1 s' res,
            ('(r', st, code) ← mpi_wait r;
             libmesh_call_mpi code;;
             post_wait build w;;
             mret (mkStatus st, mkRequest r' prior' w)) s1 = (s', res) →
            only_nulled (heap s1) (heap s')) as Hown.
  { intros r w prior' s1 s' res H.
    apply bind_inv in H as [(e & H & _)|(s2 & [[r' st] code] & Hm & H)].
    { revert H. unfold mpi_wait. by destruct (MPI_Wait _ _) as [[[? ?] ?] ?]. }
    assert (heap s2 = heap s1) as <-.
    { revert Hm. unfold mpi_wait. destruct (MPI_Wait _ _) as [[[? ?] ?] ?].
      by intros [= <- _ _ _]. }
    apply bind_inv in H as [(e & H & _)|(s3 & [] & Hc & H)].
    { revert H. munfold. destruct (decide (code = MPI_SUCCESS)); [done|].
      intros [= <- _]. apply only_nulled_refl. }
    assert (s3 = s2) as ->.
    { revert Hc. munfold. destruct (decide (code = MPI_SUCCESS)); [|done].
      by intros [= ->]. }
    apply bind_inv in H as [(e & H & _)|(s4 & [] & Hw & H)].
    - by eapply post_wait_nulled.
    - injection H as <- _. by eapply post_wait_nulled. }
  induction this as [r w|r p w IH] using Request_ind; intros s s' res;
    rewrite Request_wait_eq; simpl; intros H.
  - by apply (Hown r w None s s' res).
  - apply bind_inv in H as [(e & H & _)|(s1 & prior' & Hp & H)].
    + apply bind_inv in H as [(e' & H & _)|(s0 & [st_p p'] & _ & H)]; [|done].
      by eapply IH.
    + apply bind_inv_ok in Hp as (s0 & [st_p p'] & Hp & Hr).
      injection Hr as <- <-.
      eapply only_nulled_trans; [by eapply IH|].
      by apply (Hown r w (Some p') s0 s' res).
Qed.

(** X10. Whatever its outcome, [wait] allocates no work list and deletes
    none, and all it does to a list is to null entries: at every place the
    heap holds a list after the wait exactly if it held one before, with
    the same count and the same number of entries, and each entry is what
    it was or null. A list whose work has run stays allocated, with its
    null entries, until its last handle is destroyed or assigned to. *)
Theorem wait_only_nulls_entries (this : Request) (s : State) (l : loc) :
  match heap s !! l, heap (Request_wait build this s).1 !! l with
  | Some wl, Some wl' =>
      second wl' = second wl ∧
      length (first wl') = length (first wl) ∧
      ∀ i item', first wl' !! i = Some item' →
                 item' = None ∨ first wl !! i = Some item'
  | None, None => True
  | _, _ => False
  end.
Proof.
  destruct (Request_wait build this s) as [s' res] eqn:H. simpl.
  apply wait_nulled in H. specialize (H l).
  destruct H as [wl wl' [Hcount Hitems]|]; [|done].
  split; [done|]. split; [symmetry; by eapply Forall2_length|].
  intros i item' Hi.
  destruct (Forall2_lookup_r _ _ _ _ _ Hitems Hi) as (item & Hitem & [->| ->]);
    auto.
Qed.

(** X11. The overload [test (status &)] is [test ()] without its
    assertions: whenever [test ()] returns, [test (status &)] returns the
    same flag and leaves the same handle and state; it returns in the same
    way where assertions are not checked; and where [test ()] fails,
    [test (status &)] either fails in the same way or [test ()] has failed
    on one of its two assertions after a completed test, which
    [test (status &)] reports as true. *)
Theorem test_status_is_test_unchecked (this : Request) (s : State) :
  (∀ s' b this',
     Request_test build this s = (s', Ok (b, this')) →
     ∃ st, Request_test_status this s = (s', Ok (b, st, this'))) ∧
  (strict build = false →
   ∀ s' b st this',
     Request_test_status this s = (s', Ok (b, st, this')) →
     Request_test build this s = (s', Ok (b, this'))) ∧
  (∀ s' e,
     Request_test build this s = (s', Err e) →
     Request_test_status this s = (s', Err e) ∨
     (strict build = true ∧
      (e = InvariantViolation assert_request_null ∨
       e = InvariantViolation assert_val_one) ∧
      ∃ st this', Request_test_status this s = (s', Ok (true, st, this')))).
Proof.
  unfold Request_test, Request_test_status. munfold.
  destruct (MPI_Test (world s) (_request this)) as [[[[w r] val] st] code].
  simpl. destruct (decide (code = MPI_SUCCESS)) as [Hcode|Hcode]; simpl.
  - split; [|split].
    + intros s' b this'. destruct (decide (val = 0)); simpl.
      * intros [= <- <- <-]. by eexists.
      * destruct (strict build); simpl.
        -- destruct (bool_decide (r = MPI_REQUEST_NULL)); simpl; [|done].
           destruct (bool_decide (val = 1)); simpl; [|done].
           intros [= <- <- <-]. by eexists.
        -- intros [= <- <- <-]. by eexists.
    + intros -> s' b st' this' [= <- <- _ <-]. by destruct (decide (val = 0)).
    + intros s' e. destruct (decide (val = 0)) as [Hval|Hval]; simpl; [done|].
      destruct (strict build); simpl; [|done].
      rewrite (bool_decide_eq_false_2 (val = 0)) by done. simpl.
      destruct (bool_decide (r = MPI_REQUEST_NULL)); simpl.
      * destruct (bool_decide (val = 1)); simpl; [done|].
        intros [= <- <-]. right. split; [done|]. split; [by right|]. by eexists _, _.
      * intros [= <- <-]. right. split; [done|]. split; [by left|]. by eexists _, _.
  - split; [done|split; [by intros _ ? ? ? ? [=]|]].
    intros s' e [= <- <-]. by left.
Qed.

End Waiting.

(** ** Failures of the lifecycle operations *)

Section Lifecycle.
Context {mpi : MPI} (build : Build).

(** The failure of the check, in a build with [DEBUG] and assertions, that
    a list which is deleted holds no item that has not run. *)
Definition checked_free (e : error) : Prop :=
  e = InvariantViolation assert_work_done ∧
  DEBUG build = true ∧ strict build = true.

(** [m], run from [s], returns with [Q] or fails on that check. *)
Definition careful {A} (m : M A) (s : State) (Q : State → A → Prop) : Prop :=
  match m s with
  | (s', Ok a) => Q s' a
  | (_, Err e) => checked_free e
  end.

Lemma careful_ret {A} (a : A) s (Q : State → A → Prop) : Q s a → careful (mret a) s Q.
Proof. done. Qed.

Lemma careful_bind {A B} (m : M A) (f : A → M B) s
    (P : State → A → Prop) (Q : State → B → Prop) :
  careful m s P →
  (∀ s1 a, m s = (s1, Ok a) → P s1 a → careful (f a) s1 Q) →
  careful (m ≫= f) s Q.
Proof.
  unfold careful, mbind, M_bind. destruct (m s) as [s1 [a|e]]; [|done].
  intros HP Hf. by apply Hf.
Qed.

Ltac at_loc l :=
  repeat match goal with
         | H : ∀ l' : loc, _ |- _ => specialize (H l)
         end;
  repeat (progress (rewrite ?work_lists_chain, ?count_app in *;
                    cbn [_request _prior_request post_wait_work chain_lists] in *)).

Lemma cleanup_careful this s n0 :
  counted (heap s) (λ l, (count l (work_lists this) + n0 l)%nat) →
  (∀ l, Z.of_nat (count l (work_lists this) + n0 l) < UINT_MODULUS) →
  careful (cleanup build this) s
    (λ s' this',
       counted (heap s') (λ l, (count l (chain_lists (_prior_request this)) + n0 l)%nat) ∧
       this' = mkRequest (_request this) (_prior_request this)
                         (cleaned (post_wait_work this) (heap s))).
Proof.
  intros Hc Hb. unfold careful.
  destruct (cleanup build this s) as [s' [this'|e]] eqn:E.
  - by apply (cleanup_counted build _ _ _ _ n0 Hc Hb).
  - assert (valid (post_wait_work this) (heap s)) as Hv.
    { eapply counted_valid; [exact Hc|]. intros l. at_loc l. lia. }
    destruct (post_wait_work this) as [l|] eqn:Hp.
    + destruct (Hv l eq_refl) as [wl Hl].
      rewrite (cleanup_spec build this s l wl Hp Hl) in E.
      destruct (decide _); [|done].
      destruct (DEBUG build) eqn:Hd, (strict build) eqn:Hs; simpl in E; try done.
      destruct (negb _); [|done]. by injection E as _ <-.
    + unfold cleanup in E. by rewrite Hp in E.
Qed.

Lemma Request_destroy_careful this : ∀ s n0,
  counted (heap s) (λ l, (count l (work_lists this) + n0 l)%nat) →
  (∀ l, Z.of_nat (count l (work_lists this) + n0 l) < UINT_MODULUS) →
  careful (Request_destroy build this) s (λ s' _, counted (heap s') n0).
Proof.
  induction this as [r w|r p w IH] using Request_ind; intros s n0 Hc Hb;
    rewrite Request_destroy_eq;
    (eapply careful_bind; [by apply (cleanup_careful _ _ n0)|]);
    intros s1 this1 _ [Hc1 _]; simpl in *.
  - by apply careful_ret.
  - apply IH; [done|]. intros l. specialize (Hb l). rewrite count_app in Hb. lia.
Qed.

Lemma delete_prior_careful old s n0 :
  counted (heap s) (λ l, (count l (chain_lists old) + n0 l)%nat) →
  (∀ l, Z.of_nat (count l (chain_lists old) + n0 l) < UINT_MODULUS) →
  careful (delete_prior build old) s (λ s' _, counted (heap s') n0).
Proof.
  destruct old as [p|]; simpl.
  - apply Request_destroy_careful.
  - intros Hc _. by apply careful_ret.
Qed.

Lemma Request_copy_careful other s n :
  counted (heap s) n →
  (∀ l, (count l (work_lists other) ≤ n l)%nat) →
  (∀ l, Z.of_nat (count l (work_lists other) + n l) < UINT_MODULUS) →
  careful (Request_copy other) s
    (λ s' x, x = other ∧
             counted (heap s') (λ l, (count l (work_lists other) + n l)%nat)).
Proof.
  intros Hc Hle Hb. unfold careful.
  destruct (Request_copy other s) as [s' res] eqn:E.
  by apply (Request_copy_counted _ _ _ _ _ Hc Hle Hb) in E as [-> Hc'].
Qed.

Lemma acquire_careful p s n :
  counted (heap s) n →
  (∀ l, (count l (own p) ≤ n l)%nat) →
  (∀ l, Z.of_nat (count l (own p) + n l) < UINT_MODULUS) →
  careful (acquire p) s
    (λ s' _, counted (heap s') (λ l, (count l (own p) + n l)%nat)).
Proof.
  intros Hc Hle Hb. unfold careful. destruct (acquire p s) as [s' res] eqn:E.
  by apply (acquire_counted _ _ _ _ _ Hc Hle Hb) in E as [-> Hc'].
Qed.

Lemma add_post_wait_work_careful this work s n0 :
  counted (heap s) (λ l, (count l (work_lists this) + n0 l)%nat) →
  careful (add_post_wait_work this work) s
    (λ s' this', counted (heap s') (λ l, (count l (work_lists this') + n0 l)%nat)).
Proof.
  intros Hc. pose proof (add_post_wait_work_safe this work s n0 Hc) as Hsafe.
  unfold safe in Hsafe. unfold careful.
  destruct (add_post_wait_work this work s) as [s' [this'|e]] eqn:E; [done|].
  exfalso. revert E. unfold add_post_wait_work.
  destruct (post_wait_work this) as [l0|] eqn:Hp; munfold; simpl.
  - assert (is_Some (heap s !! l0)) as [wl Hl].
    { eapply (counted_valid _ _ (Some l0)); [exact Hc| |done].
      intros l. at_loc l. rewrite Hp. lia. }
    by rewrite Hl.
  - by rewrite lookup_insert_eq.
Qed.

Lemma Request_assign_native_careful this r s n0 :
  counted (heap s) (λ l, (count l (work_lists this) + n0 l)%nat) →
  (∀ l, Z.of_nat (count l (work_lists this) + n0 l) < UINT_MODULUS) →
  careful (Request_assign_native build this r) s
    (λ s' this', counted (heap s') (λ l, (count l (work_lists this') + n0 l)%nat)).
Proof.
  intros Hc Hb. unfold Request_assign_native.
  eapply careful_bind; [by apply (cleanup_careful _ _ n0)|].
  intros s1 this1 _ [Hc1 ->]. apply careful_ret.
  eapply counted_ext; [|exact Hc1]. intros l. by at_loc l.
Qed.

Lemma Request_assign_careful this other s n0 :
  counted (heap s) (λ l, (count l (work_lists this) + n0 l)%nat) →
  (∀ l, 2 * Z.of_nat (count l (work_lists this) + n0 l) < UINT_MODULUS) →
  match other with
  | Other o => ∀ l, (count l (work_lists o) ≤ n0 l)%nat
  | Self => True
  end →
  careful (Request_assign build this other) s
    (λ s' this', counted (heap s') (λ l, (count l (work_lists this') + n0 l)%nat)).
Proof.
  intros Hc Hb Hother. unfold Request_assign.
  assert (valid (post_wait_work this) (heap s)) as Hv.
  { eapply counted_valid; [exact Hc|]. intros l. at_loc l. lia. }
  eapply careful_bind.
  { apply (cleanup_careful _ _ n0 Hc). intros l; at_loc l; lia. }
  intros s1 this1 Hcl [Hc1 ->].
  apply (cleanup_inv build _ _ _ _ Hv) in Hcl as [Hh1 _].
  destruct this as [r prior p]. cbn [_request _prior_request post_wait_work] in *.
  destruct other as [|[ro prioro po]];
    cbn [resolve _request _prior_request post_wait_work].
  - eapply (careful_bind _ _ _
              (λ s2 this2,
                 counted (heap s2) (λ l, (count l (chain_lists prior) + n0 l)%nat) ∧
                 this2 = mkRequest r prior (cleaned p (heap s)))).
    { destruct prior as [q|].
      - eapply careful_bind.
        { apply (Request_copy_careful _ _ _ Hc1);
            [intros l; at_loc l; lia | intros l; at_loc l; lia]. }
        intros s4 q' _ [-> Hc4]. eapply careful_bind.
        { apply (delete_prior_careful (Some q) _ _ Hc4). intros l; at_loc l; lia. }
        intros s5 [] _ Hc5. by apply careful_ret.
      - by apply careful_ret. }
    intros s2 this2 _ [Hc2 ->]. cbn [post_wait_work]. eapply careful_bind.
    { apply (acquire_careful _ _ _ Hc2).
      - intros l. rewrite count_own. destruct (decide _) as [Hcl|]; [|lia].
        specialize (Hc1 l). rewrite Hh1 in Hc1.
        destruct p as [l0|]; [|done].
        destruct (Hv l0 eq_refl) as [wl Hwl]. cbn [cleaned released] in *.
        rewrite Hwl in *.
        destruct (decide (uint (second wl - 1) = 0)); [done|].
        injection Hcl as ->. rewrite lookup_insert_eq in Hc1.
        destruct Hc1 as [_ Hpos]. cbn beta in Hpos. lia.
      - intros l. rewrite count_own. destruct (decide _) as [Hcl|]; [|at_loc l; lia].
        assert (p = Some l) as ->.
        { destruct p as [l0|]; [|done].
          destruct (Hv l0 eq_refl) as [wl Hwl]. cbn [cleaned] in Hcl.
          rewrite Hwl in Hcl. by destruct (decide _). }
        at_loc l. rewrite count_own, decide_True in Hb by done. lia. }
    intros s3 [] _ Hc3. apply careful_ret.
    eapply counted_ext; [|exact Hc3]. intros l. at_loc l. lia.
  - eapply (careful_bind _ _ _
              (λ s2 this2,
                 counted (heap s2)
                   (λ l, (count l (chain_lists (_prior_request this2)) + n0 l)%nat) ∧
                 post_wait_work this2 = po ∧
                 ∀ l, (count l (chain_lists (_prior_request this2)) ≤
                       count l (chain_lists prior) + count l (chain_lists prioro))%nat)).
    { destruct prioro as [q|].
      - eapply careful_bind.
        { apply (Request_copy_careful _ _ _ Hc1);
            [intros l; at_loc l; lia | intros l; at_loc l; lia]. }
        intros s4 q' _ [-> Hc4]. eapply careful_bind.
        { apply (delete_prior_careful prior _
                   (λ l, (count l (work_lists q) + n0 l)%nat)).
          - eapply counted_ext; [|exact Hc4]. intros l. simpl. lia.
          - intros l; at_loc l; lia. }
        intros s5 [] _ Hc5. apply careful_ret. repeat split; [done|].
        intros l. simpl. lia.
      - apply careful_ret. repeat split; [done|]. intros l. simpl. lia. }
    intros s2 this2 _ (Hc2 & Hpo & Hle). rewrite Hpo. eapply careful_bind.
    { apply (acquire_careful _ _ _ Hc2).
      - intros l; at_loc l; lia.
      - intros l. specialize (Hle l). at_loc l. lia. }
    intros s3 [] _ Hc3. apply careful_ret.
    eapply counted_ext; [|exact Hc3]. intros l.
    rewrite (work_lists_chain this2), count_app, Hpo. lia.
Qed.

Lemma on_careful i xs f s :
  counted (heap s) (sharers xs) →
  (∀ this n0,
     xs !! i = Some this →
     (∀ l, sharers xs l = (count l (work_lists this) + n0 l)%nat) →
     counted (heap s) (λ l, (count l (work_lists this) + n0 l)%nat) →
     careful (f this) s
       (λ s1 this', counted (heap s1) (λ l, (count l (work_lists this') + n0 l)%nat))) →
  careful (on i xs f) s (λ s' xs', counted (heap s') (sharers xs')).
Proof.
  intros Hc Hf. unfold on. destruct (xs !! i) as [this|] eqn:Hi.
  - eapply careful_bind.
    + apply (Hf this (sharers (delete i xs)) eq_refl).
      * intros l. by apply sharers_lookup.
      * eapply counted_ext; [|exact Hc]. intros l. by apply sharers_lookup.
    + intros s1 this' _ Hc1. apply careful_ret.
      eapply counted_ext; [|exact Hc1]. intros l.
      by rewrite (sharers_insert xs i this this' l Hi).
  - by apply careful_ret.
Qed.

(** The statements that construct, copy, assign and destroy handles and
    that queue work. *)
Definition lifecycle (c : statement) : bool :=
  match c with
  | Construct | ConstructNative _ | ConstructCopy _ | Assign _ _
  | AssignNative _ _ | Destroy _ | AddPostWaitWork _ _ => true
  | Wait _ | Test _ | TestStatus _ | AddPriorRequest _ _ => false
  end.

Lemma exec_careful c xs s :
  lifecycle c = true →
  counted (heap s) (sharers xs) →
  (∀ l, 2 * Z.of_nat (sharers xs l) < UINT_MODULUS) →
  careful (exec build c xs) s (λ s' xs', counted (heap s') (sharers xs')).
Proof.
  intros Hlife Hc Hb.
  destruct c as [|r|j|i j|i r|i|i|i|i|i j|i work]; simpl in *; try done.
  - apply careful_ret. eapply counted_ext; [|exact Hc]. intros l.
    rewrite sharers_app, sharers_single. simpl. rewrite count_nil. lia.
  - apply careful_ret. eapply counted_ext; [|exact Hc]. intros l.
    rewrite sharers_app, sharers_single. simpl. rewrite count_nil. lia.
  - destruct (xs !! j) as [other|] eqn:Hj; [|by apply careful_ret].
    assert (∀ l, (count l (work_lists other) ≤ sharers xs l)%nat) as Hle.
    { intros l. apply sharers_elem, list_elem_of_lookup. eauto. }
    eapply careful_bind.
    { apply (Request_copy_careful _ _ _ Hc Hle).
      intros l. specialize (Hle l). specialize (Hb l). lia. }
    intros s1 x _ [-> Hc1]. apply careful_ret.
    eapply counted_ext; [|exact Hc1]. intros l. simpl.
    rewrite sharers_app, sharers_single. lia.
  - destruct (xs !! j) as [other|] eqn:Hj; [|by apply careful_ret].
    apply on_careful; [done|]. intros this n0 Hi Hn Hc0.
    apply Request_assign_careful; [done| |].
    + intros l. rewrite <- Hn. apply Hb.
    + destruct (decide (i = j)) as [|Hne]; [done|]. intros l.
      pose proof (sharers_elem other (delete i xs) l
                    (delete_elem_ne xs i j other Hne Hj)) as Hle.
      pose proof (sharers_lookup xs i this l Hi) as Hl. specialize (Hn l). lia.
  - apply on_careful; [done|]. intros this n0 Hi Hn Hc0.
    apply Request_assign_native_careful; [done|].
    intros l. specialize (Hb l). rewrite <- Hn. lia.
  - destruct (xs !! i) as [this|] eqn:Hi; [|by apply careful_ret].
    eapply careful_bind.
    { apply (Request_destroy_careful this s (sharers (delete i xs))).
      - eapply counted_ext; [|exact Hc]. intros l. by apply sharers_lookup.
      - intros l. specialize (Hb l).
        rewrite <- (sharers_lookup xs i this l Hi). lia. }
    intros s1 [] _ Hc1. by apply careful_ret.
  - apply on_careful; [done|]. intros this n0 Hi Hn Hc0.
    by apply add_post_wait_work_careful.
Qed.

(** X12. In a program whose counts are exact, constructing, copying,
    assigning and destroying handles and queuing work can fail in one way
    only: on the check, made in a build with [DEBUG] and assertions, that a
    list being deleted holds no item that has not run. In every other build
    these statements always return. *)
Theorem lifecycle_fails_only_on_checked_free
    (c : statement) (xs : list Request) (s : State) :
  lifecycle c = true →
  counted (heap s) (sharers xs) →
  (∀ l, 2 * Z.of_nat (sharers xs l) < UINT_MODULUS) →
  (∀ s' e, exec build c xs s = (s', Err e) →
           e = InvariantViolation assert_work_done ∧
           DEBUG build = true ∧ strict build = true) ∧
  (DEBUG build && strict build = false →
   ∃ s' xs', exec build c xs s = (s', Ok xs')).
Proof.
  intros Hlife Hc Hb. pose proof (exec_careful c xs s Hlife Hc Hb) as Hcare.
  unfold careful in Hcare.
  destruct (exec build c xs s) as [s' [xs'|e]]; split.
  - by intros ? ? [=].
  - intros _. by exists s', xs'.
  - by intros ? ? [= _ <-].
  - intros Hbuild. destruct Hcare as (_ & Hd & Hs). by rewrite Hd, Hs in Hbuild.
Qed.

End Lifecycle.

(** ** Instances *)

Section FurtherScenarios.
Local Existing Instance signaled.

(** X queues two more items and is waited on. *)
Lemma queued_work_runs_in_order_witness :
  ∃ s1 this1 s2,
    add_post_wait_works X [Some 6%positive; Some 7%positive] one = (s1, Ok this1) ∧
    Request_wait dbg this1 s1 =
      (s2, Ok (@mkStatus signaled 11, mkRequest 0 None (post_wait_work this1))) ∧
    trace s2 = [EvWait 11; EvRun 5%positive; EvDelete 5%positive;
                EvRun 6%positive; EvDelete 6%positive;
                EvRun 7%positive; EvDelete 7%positive].
Proof.
  apply (queued_work_runs_in_order dbg X [6%positive; 7%positive] one 1%nat 0 11).
  - reflexivity.
  - eexists. split; [reflexivity|]. repeat constructor. by eexists.
  - reflexivity.
Defined.

(** A handle made from a native request has no list: its copy gets a list
    of its own when work is queued on it. *)
Definition bare : Request := mkRequest 7 None None.

Lemma copy_shares_list_only_if_present_witness :
  ∃ s1 s2 copy,
    Request_copy bare one = (s1, Ok bare) ∧
    add_post_wait_work bare (Some 9%positive) s1 = (s2, Ok copy) ∧
    ∃ l, post_wait_work copy = Some l ∧
         heap one !! l = None ∧ (l ∉ work_lists bare) ∧
         heap s2 !! l = Some (mkWorkList [Some 9%positive] 1).
Proof.
  apply (copy_shares_list_only_if_present bare (Some 9%positive) one).
  intros l Hl. apply list_elem_of_In in Hl. destruct Hl.
Defined.

Lemma copy_then_destroy_restores_witness :
  ∃ s1, Request_copy R2 chained = (s1, Ok R2) ∧
        Request_destroy dbg R2 s1 = (chained, Ok tt).
Proof.
  apply (copy_then_destroy_restores dbg R2 chained).
  intros l Hl. apply list_elem_of_In in Hl. simpl in Hl.
  destruct Hl as [<-|[<-|[]]]; eexists; (split; [reflexivity|]); by vm_compute.
Defined.

Lemma add_prior_request_drops_chain_witness :
  add_prior_request opt C R2 abc_chained =
    (mkState (retained (Some 2%positive) (heap abc_chained)) 0%nat [],
     Ok (mkRequest 3 (Some (mkRequest 22 None (Some 2%positive)))
                   (Some 3%positive))).
Proof.
  apply (add_prior_request_drops_chain opt C R2 abc_chained).
  - by left.
  - intros l Hl. apply list_elem_of_In in Hl. simpl in Hl.
    destruct Hl as [<-|[<-|[]]]; eexists; (split; [reflexivity|]); by vm_compute.
Defined.

Lemma self_assignment_shared_witness :
  Request_assign dbg R2 Self abc_chained_after = (abc_chained_after, Ok R2).
Proof.
  apply (self_assignment_shared dbg R2 abc_chained_after).
  - eexists. split; [reflexivity|]. by vm_compute.
  - intros l Hl. apply list_elem_of_In in Hl. simpl in Hl.
    destruct Hl as [<-|[]]. eexists. split; [reflexivity|]. by vm_compute.
Defined.

Lemma self_assignment_sole_owner_witness :
  Request_assign opt R2 Self chained =
    (mkState (delete 2%positive (heap chained)) 0%nat [],
     Ok (mkRequest 22 (Some R1) None)).
Proof.
  apply (self_assignment_sole_owner opt R2 chained 2%positive
           (mkWorkList [Some 2%positive] 1)).
  - reflexivity.
  - reflexivity.
  - reflexivity.
  - discriminate.
  - intros l Hl. apply list_elem_of_In in Hl. simpl in Hl.
    destruct Hl as [<-|[]]. eexists. split; [reflexivity|]. by vm_compute.
Defined.

(** C = R2: the chain of R2 replaces that of C, whose list is deleted. *)
Definition abc_assigned : State :=
  Eval vm_compute in (Request_assign opt C (Other R2) abc_chained).1.

Lemma assignment_result_witness :
  Request_assign opt C (Other R2) abc_chained = (abc_assigned, Ok R2) ∧
  R2 = mkRequest 22 (Some R1) (Some 2%positive) ∧
  (is_Some (_prior_request R2) → R2 = R2).
Proof.
  assert (Request_assign opt C (Other R2) abc_chained = (abc_assigned, Ok R2)) as H.
  { vm_compute; reflexivity. }
  split; [exact H|].
  exact (assignment_result opt C R2 R2 abc_chained abc_assigned H).
Defined.

(** wait ({R2, C}): the chain of R2, oldest link first, then C. *)
Lemma wait_all_completes_in_vector_order_witness :
  ∃ s' rs',
    wait_all dbg [R2; C] abc_chained = (s', Ok rs') ∧
    length rs' = 2%nat ∧
    trace s' = [EvWait 11; EvRun 1%positive; EvDelete 1%positive;
                EvWait 22; EvRun 2%positive; EvDelete 2%positive;
                EvWait 3; EvRun 30%positive; EvDelete 30%positive].
Proof.
  apply (wait_all_completes_in_vector_order dbg [R2; C] abc_chained).
  - intros w q. reflexivity.
  - compute_done.
  - repeat constructor; simpl; eexists; (split; [reflexivity|]);
      repeat constructor; eexists; reflexivity.
Defined.

(** A null pointer queued between two items. *)
Definition holed : State :=
  mkState (<[1%positive := mkWorkList [Some 5%positive; None; Some 6%positive] 1]> ∅)
          0%nat [].

Lemma wait_stops_at_null_work_witness :
  Request_wait opt X holed =
    (mkState (<[1%positive := mkWorkList [None; None; Some 6%positive] 1]> (heap holed))
             1%nat [EvWait 11; EvRun 5%positive; EvDelete 5%positive],
     Err (UndefinedBehaviour null_dereference)).
Proof.
  apply (wait_stops_at_null_work opt X holed holed None 1%nat 0 11 1%positive
           (mkWorkList [Some 5%positive; None; Some 6%positive] 1)
           [5%positive] [Some 6%positive]).
  - by split.
  - reflexivity.
  - reflexivity.
  - reflexivity.
  - reflexivity.
Defined.

Lemma test_status_is_test_unchecked_witness :
  ∃ st, Request_test_status X one =
          (mkState (heap one) 1%nat [EvTest 11], Ok (true, st, mkRequest 0 None (Some 1%positive))).
Proof.
  apply (proj1 (test_status_is_test_unchecked dbg X one)).
  vm_compute; reflexivity.
Defined.

(** X = X with one owner, in a build without the check. *)
Lemma lifecycle_fails_only_on_checked_free_witness :
  ∃ s' xs', exec opt (Assign 0 0) [X] one = (s', Ok xs').
Proof.
  apply (lifecycle_fails_only_on_checked_free opt (Assign 0 0) [X] one).
  - reflexivity.
  - exact counted_one.
  - exact bounded_one.
  - reflexivity.
Defined.

End FurtherScenarios.
